(** * gcompare2: comparison of named gene tables over every subset of datasets

    A shallow embedding of [gcompare2.py].  Python values are rendered as
    follows:
    - [str] is [string]; comparison of strings is the lexicographic order on
      character codes, [String.le];
    - a [dict] keyed by strings is a [gmap string _], a [frozenset] of
      strings a [gset string];
    - a [set] of objects hashed by identity is the duplicate-free list of
      its members in the order iteration visits them;
    - an exception is a value of [exn], a call that may raise returns a
      [result], and a generator is a [gen]: the items it yields, ended by
      [StopGen] or by the exception that escapes it. *)

From Stdlib Require Import Ascii String.
From stdpp Require Import gmap strings list sorting fin_maps pretty.

Local Open Scope string_scope.

(** ** Exceptions and fallible calls *)

Inductive exn : Set :=
| IndexError
| TypeError
| KeyError
| StopIteration.

Inductive result (A : Type) : Type :=
| Ok (a : A)
| Err (e : exn).
Arguments Ok {A} a.
Arguments Err {A} e.

#[global] Instance exn_eq_dec : EqDecision exn.
Proof. solve_decision. Defined.

#[global] Instance result_ret : MRet result := λ A a, Ok a.
#[global] Instance result_bind : MBind result := λ A B f m,
  match m with
  | Ok a => f a
  | Err e => Err e
  end.

(** [l[i]] on a Python list. *)
Definition index {A} (l : list A) (i : nat) : result A :=
  match l !! i with
  | Some a => Ok a
  | None => Err IndexError
  end.

(** [l[i] = v] on a Python list. *)
Definition setitem {A} (l : list A) (i : nat) (v : A) : result (list A) :=
  if decide (i < length l) then Ok (<[i := v]> l) else Err IndexError.

(** ** Generators *)

Inductive gen (A : Type) : Type :=
| StopGen
| Yield (a : A) (rest : gen A)
| Raise (e : exn).
Arguments StopGen {A}.
Arguments Yield {A} a rest.
Arguments Raise {A} e.

(** Running [g1] to its end and then [g2]; an exception of [g1] ends both. *)
Fixpoint gen_seq {A} (g1 g2 : gen A) : gen A :=
  match g1 with
  | StopGen => g2
  | Yield a rest => Yield a (gen_seq rest g2)
  | Raise e => Raise e
  end.

(** [for x in l: <body x>] inside a generator. *)
Definition gen_for {A B} (l : list A) (body : A → gen B) : gen B :=
  foldr (λ x rest, gen_seq (body x) rest) StopGen l.

(** [yield <e>] where evaluating [e] may raise. *)
Definition yield {A} (r : result A) : gen A :=
  match r with
  | Ok a => Yield a StopGen
  | Err e => Raise e
  end.

(** What a consumer receives from a generator: the items, and the exception
    that ended it, if one did. *)
Fixpoint yielded {A} (g : gen A) : list A :=
  match g with
  | StopGen => []
  | Yield a rest => a :: yielded rest
  | Raise _ => []
  end.

Fixpoint raised {A} (g : gen A) : option exn :=
  match g with
  | StopGen => None
  | Yield _ rest => raised rest
  | Raise e => Some e
  end.

(** ** Strings *)

(** [s.split(sep)] for a one-character separator. *)
Fixpoint split (sep : ascii) (s : string) : list string :=
  match s with
  | EmptyString => [EmptyString]
  | String c s' =>
      if Ascii.eqb c sep then EmptyString :: split sep s'
      else match split sep s' with
           | [] => [String c EmptyString]
           | f :: fs => String c f :: fs
           end
  end.

(** [sep.join(l)]. *)
Definition join (sep : string) (l : list string) : string := String.concat sep l.

Definition dash : ascii := "-"%char.

(** The string of one line feed. *)
Definition newline : string := String (ascii_of_nat 10) EmptyString.

(** A field of an identifier: a string with no ["-"] in it. *)
Fixpoint dash_free (s : string) : Prop :=
  match s with
  | EmptyString => True
  | String c s' => c ≠ dash ∧ dash_free s'
  end.

(** ** The record normalizer *)

Definition sanitize_id (ident : string) : result string :=
  let id_fields := split dash ident in
  f0 ← index id_fields 0;
  let id_fields := if decide (f0 = "tRNA") then drop 1 id_fields else id_fields in
  mret (join "-" (take 3 id_fields)).

(** ** Gene records *)

(** The names in [Gene._fields], in declared order. *)
Inductive field : Set :=
| F_id
| F_iso
| F_foldcount
| F_p_value.

Definition field_name (f : field) : string :=
  match f with
  | F_id => "id"
  | F_iso => "iso"
  | F_foldcount => "foldcount"
  | F_p_value => "p_value"
  end.

Definition Gene_fields : list field := [F_id; F_iso; F_foldcount; F_p_value].

Record Gene : Set := mkGene {
  g_id : string;
  g_iso : string;
  g_foldcount : string;
  g_p_value : string
}.

#[global] Instance Gene_eq_dec : EqDecision Gene.
Proof. solve_decision. Defined.

Definition getattr (g : Gene) (f : field) : string :=
  match f with
  | F_id => g_id g
  | F_iso => g_iso g
  | F_foldcount => g_foldcount g
  | F_p_value => g_p_value g
  end.

(** Calling [Gene] on an unpacked list: one positional argument per field,
    [TypeError] otherwise. *)
Definition Gene_new (args : list string) : result Gene :=
  match args with
  | [a; b; c; d] => Ok (mkGene a b c d)
  | _ => Err TypeError
  end.

(** ** The record table loader

    [rows] is what [csv.reader] hands over: the header row first, then one
    list of strings per line of the file. *)

(** The body of the [try] block for one row [l]. *)
Definition load_row (genes : gmap string Gene) (l : list string)
  : result (gmap string Gene) :=
  let fields := take (length Gene_fields) l in
  f0 ← index fields 0;
  sid ← sanitize_id f0;
  fields ← setitem fields 0 sid;
  g ← Gene_new fields;
  mret (<[g_id g := g]> genes).

(** One turn of the loop: the [try] block and its [except TypeError]. *)
Definition load_step (st : gmap string Gene * nat) (l : list string)
  : result (gmap string Gene * nat) :=
  match load_row st.1 l with
  | Ok genes => Ok (genes, st.2)
  | Err TypeError => Ok (st.1, st.2 + 1)
  | Err e => Err e
  end.

Fixpoint load_rows (st : gmap string Gene * nat) (rows : list (list string))
  : result (gmap string Gene * nat) :=
  match rows with
  | [] => Ok st
  | l :: rows' => st' ← load_step st l; load_rows st' rows'
  end.

Definition load_file (rows : list (list string)) : result (gmap string Gene * nat) :=
  match rows with
  | [] => Err StopIteration
  | _header :: data => load_rows (∅, 0) data
  end.

(** ** [sorted]

    Python's [sorted] is stable; so is this insertion sort: an element is
    placed before the first element whose key is not smaller. *)

Fixpoint insert_by {A} (key : A → string) (x : A) (l : list A) : list A :=
  match l with
  | [] => [x]
  | y :: l' =>
      if decide (String.le (key x) (key y)) then x :: l
      else y :: insert_by key x l'
  end.

Definition sorted_by {A} (key : A → string) (l : list A) : list A :=
  foldr (insert_by key) [] l.

Definition sorted (l : list string) : list string := sorted_by (λ s, s) l.

(** ** Datasets *)

(** [ds_oid] is the identity of the object: [Dataset] defines neither
    [__eq__] nor [__hash__], so sets compare datasets by identity. *)
Record Dataset : Type := mkDataset {
  ds_oid : nat;
  ds_genes : gmap string Gene;
  ds_name : string;
  ds_ids : gset string
}.

(** [Dataset(genes, name)], allocated at identity [oid]. *)
Definition Dataset_init (oid : nat) (genes : gmap string Gene) (name : string)
  : Dataset :=
  mkDataset oid genes name (dom genes).

(** ** Sets of datasets

    The order in which a [set] of identity-hashed objects is iterated is
    not fixed by the language.  [set_iter l] is the order given to a set
    built from the members [l]; all that is known of it is that it
    rearranges them. *)

Class SetOrder : Type := {
  set_iter : list Dataset → list Dataset;
  set_iter_perm : ∀ l, set_iter l ≡ₚ l
}.

(** Two orders a run may show: the members as they were inserted, and
    the reverse. *)
Definition insertion_order : SetOrder :=
  {| set_iter := λ l, l; set_iter_perm := λ l, reflexivity l |}.

Definition reverse_order : SetOrder :=
  {| set_iter := reverse; set_iter_perm := reverse_Permutation |}.

Definition oids (l : list Dataset) : list nat := ds_oid <$> l.

(** The members of [l], each identity once. *)
Fixpoint distinct (l : list Dataset) : list Dataset :=
  match l with
  | [] => []
  | d :: l' => d :: filter (λ d', ds_oid d' ≠ ds_oid d) (distinct l')
  end.

Section sets.
Context `{SetOrder}.

(** [set(c)] *)
Definition set_of (c : list Dataset) : list Dataset := set_iter (distinct c).

(** [a - b] *)
Definition set_diff (a b : list Dataset) : list Dataset :=
  set_iter (filter (λ d, ds_oid d ∉ oids b) a).

(** [a.add(d)] *)
Definition set_add (a : list Dataset) (d : Dataset) : list Dataset :=
  if decide (ds_oid d ∈ oids a) then a else set_iter (a ++ [d])%list.

End sets.

(** ** Slices *)

Record DataSlice : Type := mkDataSlice {
  sl_keep : list Dataset;
  sl_exclude : list Dataset;
  sl_name : string;
  sl_ids : list string
}.

(** [frozenset.intersection] and [frozenset.difference] applied to an
    unpacked list of other sets. *)
Definition intersection_all (s : gset string) (others : list (gset string))
  : gset string := foldl (∩) s others.

Definition difference_all (s : gset string) (others : list (gset string))
  : gset string := foldl (∖) s others.

Definition _calc_ids (keep_datasets exclude_datasets : list Dataset)
  : result (list string) :=
  let keep_ids := ds_ids <$> keep_datasets in
  let exclude_ids := ds_ids <$> exclude_datasets in
  k0 ← index keep_ids 0;
  mret (sorted (elements
    (difference_all (intersection_all k0 (drop 1 keep_ids)) exclude_ids))).

(** What [_calc_ids] returns when [keep] has a first member (used in the
    statements below). *)
Definition ids_of (keep exclude : list Dataset) : list string :=
  sorted (elements
    (difference_all
       (intersection_all (default ∅ (head (ds_ids <$> keep)))
                         (drop 1 (ds_ids <$> keep)))
       (ds_ids <$> exclude))).

(** [DataSlice(keep, exclude, collection)].  The [collection] attribute is
    a reference to the collection object; [DataSlice_genes] receives the
    state of that object when it runs. *)
Definition DataSlice_init (keep exclude : list Dataset) : result DataSlice :=
  let name :=
    "(" ++ join " & " (ds_name <$> keep) ++ ") - ("
        ++ join " | " (ds_name <$> exclude) ++ ")" in
  ids ← _calc_ids keep exclude;
  mret (mkDataSlice keep exclude name ids).

Definition DataSlice_fields (self : DataSlice) : list string :=
  ((field_name <$> take 2 Gene_fields) ++
   concat ((λ f, (λ d, (ds_name d ++ " " ++ field_name f)%string)
                   <$> sorted_by ds_name (sl_keep self))
           <$> drop 2 Gene_fields))%list.

(** [d[k]] on a dict. *)
Definition getitem {V} (d : gmap string V) (k : string) : result V :=
  match d !! k with
  | Some v => Ok v
  | None => Err KeyError
  end.

(** ** Collections *)

Record DatasetCollection : Type := mkCollection {
  datasets : list Dataset;
  gene_names : gmap string string
}.

Definition DatasetCollection_init : DatasetCollection := mkCollection [] ∅.

(** One row of [genes()]: the body of its outer loop for the id [i]. *)
Definition gene_row (self : DataSlice) (collection : DatasetCollection)
    (i : string) : result (list string) :=
  let name := default "" (gene_names collection !! i) in
  vals ← mapM (λ f,
            mapM (λ d, g ← getitem (ds_genes d) i; mret (getattr g f))
                 (sorted_by ds_name (sl_keep self)))
          (drop 2 Gene_fields);
  mret ([i; name] ++ concat vals)%list.

Definition DataSlice_genes (self : DataSlice) (collection : DatasetCollection)
  : gen (list string) :=
  gen_for (sl_ids self) (λ i, yield (gene_row self collection i)).

(** [itertools.combinations(pool, r)]: the [r]-element subsequences of
    [pool], in lexicographic order of positions. *)
Fixpoint combinations {A} (pool : list A) (r : nat) : list (list A) :=
  match pool, r with
  | _, 0 => [[]]
  | [], S _ => []
  | x :: pool', S r' =>
      ((cons x <$> combinations pool' r') ++ combinations pool' r)%list
  end.

Section collection.
Context `{SetOrder}.

Definition DatasetCollection_add (self : DatasetCollection) (dataset : Dataset)
  : DatasetCollection :=
  mkCollection (set_add (datasets self) dataset) (gene_names self).

Definition DatasetCollection_slices (self : DatasetCollection) : gen DataSlice :=
  gen_for (seq 0 (length (datasets self))) (λ l,
    gen_for (combinations (datasets self) (l + 1)) (λ c,
      let keep := set_of c in
      let exclude := set_diff (datasets self) keep in
      yield (DataSlice_init keep exclude))).

(** The slice [slices] builds for the combination [c] of the datasets
    [ds] (used in the statements below). *)
Definition slice_of (ds c : list Dataset) : DataSlice :=
  let keep := set_of c in
  let exclude := set_diff ds keep in
  mkDataSlice keep exclude
    ("(" ++ join " & " (ds_name <$> keep) ++ ") - ("
         ++ join " | " (ds_name <$> exclude) ++ ")")%string
    (ids_of keep exclude).

End collection.

(** ** Auxiliary definitions

    What the statements below are phrased with; none of it is code of the
    program. *)

(** The record a row of four fields or more stands for; a proof device, used
    to state what the loop of [load_file] does to the table. *)
Definition row_gene (l : list string) : option Gene :=
  match l with
  | a :: b :: c :: d :: _ =>
      match sanitize_id a with
      | Ok k => Some (mkGene k b c d)
      | Err _ => None
      end
  | _ => None
  end.

(** The effect of one row that is not empty. *)
Definition step_spec (st : gmap string Gene * nat) (l : list string)
  : gmap string Gene * nat :=
  match row_gene l with
  | Some g => (<[g_id g := g]> st.1, st.2)
  | None => (st.1, st.2 + 1)
  end.

(** The order [sorted] arranges by: Python's [<=] on the keys. *)
Definition key_le {A} (key : A → string) (a b : A) : Prop :=
  String.le (key a) (key b).

(** Python's [<] on strings. *)
Definition str_lt (a b : string) : Prop := String.ltb a b = true.

(** Every combination of the pool that is not empty, smallest first: the
    order in which [slices] visits them. *)
Definition all_combinations {A} (pool : list A) : list (list A) :=
  seq 0 (length pool) ≫= (λ l, combinations pool (l + 1)).

(** The sum of [f k] over [k < m]. *)
Fixpoint sum_below (f : nat → nat) (m : nat) : nat :=
  match m with
  | 0 => 0
  | S m' => sum_below f m' + f m'
  end.

(** The name as the specification words it: the names of [keep] and of
    [exclude], each sorted, then joined. *)
Definition sorted_name (s : DataSlice) : string :=
  ("(" ++ join " & " (ds_name <$> sorted_by ds_name (sl_keep s)) ++ ") - ("
       ++ join " | " (ds_name <$> sorted_by ds_name (sl_exclude s)) ++ ")")%string.

(** ** The reference fixtures

    Datasets A and B of the test of the repository, in a collection whose
    set of datasets is iterated in the order A, B ([collection_AB]) and in
    the order B, A ([collection_BA]). *)

Definition rows_A : list (list string) :=
  [["id"; "iso"; "foldcount"; "p_value"];
   ["tRNA-Delta-ABC-1-2"; ""; "A-Delta-fc"; "A-Delta-p"];
   ["tRNA-Beta-DEF-2-x"; ""; "A-Beta-fc"; "A-Beta-p"]]%string.

Definition rows_B : list (list string) :=
  [["id"; "iso"; "foldcount"; "p_value"];
   ["tRNA-Alpha-ABC-1-y"; ""; "B-Alpha-fc"; "B-Alpha-p"];
   ["tRNA-Beta-DEF-2-z"; ""; "B-Beta-fc"; "B-Beta-p"]]%string.

Definition table_of (rows : list (list string)) : gmap string Gene :=
  match load_file rows with
  | Ok (genes, _) => genes
  | Err _ => ∅
  end.

Definition dataset_A : Dataset := Dataset_init 1 (table_of rows_A) "A".
Definition dataset_B : Dataset := Dataset_init 2 (table_of rows_B) "B".

Definition collection_AB : DatasetCollection :=
  @DatasetCollection_add insertion_order
    (@DatasetCollection_add insertion_order DatasetCollection_init dataset_A)
    dataset_B.

Definition collection_BA : DatasetCollection :=
  @DatasetCollection_add insertion_order
    (@DatasetCollection_add insertion_order DatasetCollection_init dataset_B)
    dataset_A.

(** ** The objects of a run

    The methods above are functions of the values they read.  To state what
    a call leaves behind, the same methods are written once more as programs
    over the objects of a run.  A [set] is a mutable object at an address,
    holding its members in iteration order; [set(c)] and [a - b] make a
    new object, [a.add(d)] changes the object [a].  The collection object
    has the attribute [datasets], the address of its set, and the
    attribute [gene_names], its dict.  A slice object refers to its
    [keep] and [exclude] sets by address. *)

Record heap : Type := mkHeap {
  h_sets : gmap nat (list Dataset);
  h_next : nat;
  h_datasets : nat;
  h_gene_names : gmap string string
}.

Record SliceObj : Type := mkSliceObj {
  so_keep : nat;
  so_exclude : nat;
  so_name : string;
  so_ids : list string
}.

(** A program: from the objects before to a result, or the exception that
    escaped, and the objects after. *)
Definition run (A : Type) : Type := heap → result A * heap.

#[global] Instance run_ret : MRet run := λ A a σ, (Ok a, σ).
#[global] Instance run_bind : MBind run := λ A B f m σ,
  match m σ with
  | (Ok a, σ') => f a σ'
  | (Err e, σ') => (Err e, σ')
  end.

(** A computation that touches no object. *)
Definition of_result {A} (r : result A) : run A := λ σ, (r, σ).

(** [self.datasets] *)
Definition get_datasets : run nat := λ σ, (Ok (h_datasets σ), σ).

(** Iterating the set at [a].  In a run every address held by an object
    is the address of a set; the empty default stands for no behaviour of
    the program. *)
Definition set_iterate (a : nat) : run (list Dataset) :=
  λ σ, (Ok (default [] (h_sets σ !! a)), σ).

(** A new set object with the given members. *)
Definition set_alloc (members : list Dataset) : run nat :=
  λ σ, (Ok (h_next σ),
        mkHeap (<[h_next σ := members]> (h_sets σ)) (S (h_next σ))
               (h_datasets σ) (h_gene_names σ)).

(** [gene_names.get(k, dflt)] *)
Definition names_get (k dflt : string) : run string :=
  λ σ, (Ok (default dflt (h_gene_names σ !! k)), σ).

Section objects.
Context `{SetOrder}.

(** [set(c)] *)
Definition set_new (c : list Dataset) : run nat := set_alloc (set_of c).

(** [a - b] *)
Definition set_minus (a b : nat) : run nat :=
  xs ← set_iterate a;
  ys ← set_iterate b;
  set_alloc (set_diff xs ys).

(** [a.add(d)]: the object at [a] is changed in place. *)
Definition set_insert (a : nat) (d : Dataset) : run unit :=
  λ σ, (Ok tt,
        mkHeap (alter (λ members, set_add members d) a (h_sets σ)) (h_next σ)
               (h_datasets σ) (h_gene_names σ)).

(** [DataSlice(keep, exclude, collection)] *)
Definition DataSlice_new (keep exclude : nat) : run SliceObj :=
  ks ← set_iterate keep;
  es ← set_iterate exclude;
  let name :=
    ("(" ++ join " & " (ds_name <$> ks) ++ ") - ("
         ++ join " | " (ds_name <$> es) ++ ")")%string in
  keep_datasets ← set_iterate keep;
  exclude_datasets ← set_iterate exclude;
  ids ← of_result (_calc_ids keep_datasets exclude_datasets);
  mret (mkSliceObj keep exclude name ids).

(** [collection.add(dataset)] *)
Definition add_run (dataset : Dataset) : run unit :=
  a ← get_datasets;
  set_insert a dataset.

(** [list(collection.slices())] *)
Definition slices_run : run (list SliceObj) :=
  a ← get_datasets;
  pool ← set_iterate a;
  yss ← mapM (λ l,
           a ← get_datasets;
           pool ← set_iterate a;
           mapM (λ c,
                   keep ← set_new c;
                   a ← get_datasets;
                   exclude ← set_minus a keep;
                   DataSlice_new keep exclude)
                (combinations pool (l + 1)))
         (seq 0 (length pool));
  mret (concat yss).

End objects.

(** The body of the loop of [genes()] for the id [i]. *)
Definition gene_row_run (self : SliceObj) (i : string) : run (list string) :=
  name ← names_get i "";
  vals ← mapM (λ f,
            ks ← set_iterate (so_keep self);
            of_result
              (mapM (λ d, g ← getitem (ds_genes d) i; mret (getattr g f))
                    (sorted_by ds_name ks)))
          (drop 2 Gene_fields);
  mret ([i; name] ++ concat vals)%list.

(** [tuple(self.genes())] *)
Definition genes_run (self : SliceObj) : run (list (list string)) :=
  mapM (gene_row_run self) (so_ids self).

(** Enumerating the slices and consuming the rows of each:
    [[tuple(s.genes()) for s in list(collection.slices())]]. *)
Definition consume_run `{SetOrder} : run (list (list (list string))) :=
  ss ← slices_run;
  mapM genes_run ss.

(** The collection as the methods above read it. *)
Definition heap_collection (σ : heap) : DatasetCollection :=
  mkCollection (default [] (h_sets σ !! h_datasets σ)) (h_gene_names σ).

(** The set of the collection exists, and addresses from [h_next] on are
    free. *)
Definition heap_ok (σ : heap) : Prop :=
  h_datasets σ < h_next σ ∧ is_Some (h_sets σ !! h_datasets σ).

(** [σ'] has the objects of [σ], unchanged, and maybe new ones. *)
Definition heap_ext (σ σ' : heap) : Prop :=
  h_datasets σ' = h_datasets σ ∧
  h_gene_names σ' = h_gene_names σ ∧
  (h_next σ ≤ h_next σ')%nat ∧
  ∀ a, a < h_next σ → h_sets σ' !! a = h_sets σ !! a.

(** The slice object [so] stands for the slice [s]. *)
Definition slice_rep (σ : heap) (so : SliceObj) (s : DataSlice) : Prop :=
  so_keep so < h_next σ ∧
  h_sets σ !! so_keep so = Some (sl_keep s) ∧
  so_exclude so < h_next σ ∧
  h_sets σ !! so_exclude so = Some (sl_exclude s) ∧
  so_name so = sl_name s ∧
  so_ids so = sl_ids s.

(** A generator run to its end: what it yielded, or the exception. *)
Definition gen_result {A} (g : gen A) : result (list A) :=
  match raised g with
  | Some e => Err e
  | None => Ok (yielded g)
  end.

(** What enumerating and consuming gives, as a function of the collection. *)
Definition consume_spec `{SetOrder} (C : DatasetCollection)
  : result (list (list (list string))) :=
  mapM (λ s, gen_result (DataSlice_genes s C))
       (yielded (DatasetCollection_slices C)).

(** The objects of a run that holds the collection of A and B. *)
Definition heap_AB : heap :=
  mkHeap {[0 := [dataset_A; dataset_B]]} 1 0 ∅.

(** ** The rest of the collection, and the writer *)

(** [len(collection)] *)
Definition DatasetCollection_len (self : DatasetCollection) : nat :=
  length (datasets self).

(** [iter(collection)]: the datasets, in the order the set is iterated. *)
Definition DatasetCollection_iter (self : DatasetCollection) : list Dataset :=
  datasets self.

(** The file [out] is the list of the strings written to it, in order;
    [out.write(x)] adds [x] at the end. *)
Definition write (out : list string) (x : string) : list string :=
  (out ++ [x])%list.

(** The loop of [write_slice] over the rows of [genes()]: a row is written
    as soon as it is yielded, and an exception of the generator ends the
    loop with what was written so far. *)
Fixpoint write_rows (out : list string) (g : gen (list string))
  : list string * option exn :=
  match g with
  | StopGen => (out, None)
  | Yield row rest => write_rows (write out (join "," row ++ newline)) rest
  | Raise e => (out, Some e)
  end.

(** [write_slice(out, s, gene_names)]; the third argument is not used by
    the function.  The result is the file and the exception that escaped,
    if one did. *)
Definition write_slice (out : list string) (s : DataSlice)
    (collection : DatasetCollection) : list string * option exn :=
  let out :=
    write out (sl_name s ++ ",Count," ++ pretty (length (sl_ids s)) ++ newline) in
  let out := write out (join "," (DataSlice_fields s) ++ newline) in
  match write_rows out (DataSlice_genes s collection) with
  | (out, None) => (write out newline, None)
  | (out, Some e) => (out, Some e)
  end.

(** The loop of [main] over [collection.slices()]: each slice is written
    as soon as it is yielded. *)
Fixpoint write_slices (out : list string) (g : gen DataSlice)
    (collection : DatasetCollection) : list string * option exn :=
  match g with
  | StopGen => (out, None)
  | Yield s rest =>
      match write_slice out s collection with
      | (out, None) => write_slices out rest collection
      | (out, Some e) => (out, Some e)
      end
  | Raise e => (out, Some e)
  end.

(** The line written for a row (used in the statements below). *)
Definition row_line (row : list string) : string :=
  (join "," row ++ newline)%string.

(** * Properties *)

(** ** Splitting and joining *)

Lemma append_cons (c : ascii) (s t : string) :
  String c s ++ t = String c (s ++ t).
Proof. reflexivity. Qed.

Lemma split_nonempty (sep : ascii) (s : string) : split sep s ≠ [].
Proof.
  destruct s as [|c s]; simpl; [done|].
  destruct (Ascii.eqb c sep); [done|].
  by destruct (split sep s).
Qed.

Lemma join_cons (sep f g : string) (fs : list string) :
  join sep (f :: g :: fs) = f ++ sep ++ join sep (g :: fs).
Proof. reflexivity. Qed.

Lemma split_dash_free_field (f : string) : dash_free f → split dash f = [f].
Proof.
  induction f as [|c f IH]; simpl; [done|].
  intros [Hc Hf]. rewrite (IH Hf).
  by destruct (Ascii.eqb_spec c dash).
Qed.

Lemma split_field_dash (f rest : string) :
  dash_free f → split dash (f ++ String dash rest) = f :: split dash rest.
Proof.
  induction f as [|c f IH]; [done|].
  intros [Hc Hf]. rewrite append_cons. simpl. rewrite (IH Hf).
  by destruct (Ascii.eqb_spec c dash).
Qed.

(** Splitting undoes joining, on fields with no dash in them. *)
Lemma split_join (f : string) (fs : list string) :
  Forall dash_free (f :: fs) → split dash (join "-" (f :: fs)) = f :: fs.
Proof.
  revert f. induction fs as [|g fs IH]; intros f Hall.
  - apply split_dash_free_field. by inversion Hall.
  - inversion Hall as [|?? Hf Hrest]; subst.
    rewrite join_cons. change ("-" ++ join "-" (g :: fs))
      with (String dash (join "-" (g :: fs))).
    rewrite split_field_dash by done. by rewrite IH.
Qed.

(** Joining undoes splitting, on every string. *)
Lemma join_split (s : string) : join "-" (split dash s) = s.
Proof.
  induction s as [|c s IH]; [done|]. simpl.
  pose proof (split_nonempty dash s) as Hne.
  destruct (Ascii.eqb_spec c dash) as [->|Hc].
  - destruct (split dash s) as [|g gs] eqn:E; [done|].
    rewrite join_cons, IH. reflexivity.
  - destruct (split dash s) as [|g gs] eqn:E; [done|].
    destruct gs as [|g' gs].
    + simpl in *. by rewrite IH.
    + rewrite join_cons, append_cons. rewrite join_cons in IH. by rewrite IH.
Qed.

Lemma split_dash_free (s : string) : Forall dash_free (split dash s).
Proof.
  induction s as [|c s IH]; simpl.
  - by repeat constructor.
  - destruct (Ascii.eqb_spec c dash) as [->|Hc].
    + by constructor.
    + destruct (split dash s) as [|g gs]; [by repeat constructor|].
      inversion IH; subst. by repeat constructor.
Qed.

(** ** The record normalizer *)

Lemma sanitize_id_eq (ident f : string) (fs : list string) :
  split dash ident = f :: fs →
  sanitize_id ident
  = Ok (join "-" (take 3 (if decide (f = "tRNA") then fs else f :: fs))).
Proof.
  intros E. unfold sanitize_id. rewrite E. simpl.
  by destruct (decide (f = "tRNA")).
Qed.

Lemma sanitize_id_total (ident : string) : ∃ key, sanitize_id ident = Ok key.
Proof.
  destruct (split dash ident) as [|f fs] eqn:E.
  - by destruct (split_nonempty dash ident).
  - rewrite (sanitize_id_eq _ _ _ E). eauto.
Qed.

(** C7: the normalizer never raises; every string is a dash-joined list of
    dash-free fields, and on such a list the result is the first three
    fields that remain after a leading [tRNA] field is dropped, joined by
    dashes (fewer when fewer remain); the two examples of the
    specification. *)
Theorem sanitize_id_normalizes :
  (∀ ident, ∃ key, sanitize_id ident = Ok key) ∧
  (∀ ident, ∃ f fs, Forall dash_free (f :: fs) ∧ ident = join "-" (f :: fs)) ∧
  (∀ f fs, Forall dash_free (f :: fs) →
     sanitize_id (join "-" (f :: fs))
     = Ok (join "-" (take 3 (if decide (f = "tRNA") then fs else f :: fs)))) ∧
  sanitize_id "tRNA-Ala-CGC-1-2" = Ok "Ala-CGC-1" ∧
  sanitize_id "Foo-Bar-Baz-Qux" = Ok "Foo-Bar-Baz".
Proof.
  split; [exact sanitize_id_total|]. split; [|split; [|done]].
  - intros ident. pose proof (join_split ident) as Hj.
    pose proof (split_dash_free ident) as Hd.
    destruct (split dash ident) as [|f fs] eqn:E.
    + by destruct (split_nonempty dash ident).
    + by exists f, fs.
  - intros f fs Hall. apply sanitize_id_eq. by apply split_join.
Qed.

(** The field-level equation of [sanitize_id_normalizes] at an identifier of
    two fields: fewer than three remain, and both are kept. *)
Lemma sanitize_id_normalizes_witness :
  Forall dash_free ["Ala"; "CGC"] ∧ sanitize_id "Ala-CGC" = Ok "Ala-CGC".
Proof.
  assert (Hfree : Forall dash_free ["Ala"; "CGC"]).
  { repeat constructor; by intros [=]. }
  split; [exact Hfree|].
  exact (proj1 (proj2 (proj2 sanitize_id_normalizes)) "Ala" ["CGC"] Hfree).
Defined.

(** ** The record table loader *)

Lemma row_gene_Some (l : list string) (g : Gene) :
  row_gene l = Some g ↔
  ∃ a b c d rest, l = a :: b :: c :: d :: rest ∧
    sanitize_id a = Ok (g_id g) ∧ g = mkGene (g_id g) b c d.
Proof.
  split.
  - destruct l as [|a [|b [|c [|d rest]]]]; simpl; try done.
    destruct (sanitize_id a) as [k|] eqn:E; [|done].
    intros [= <-]. by exists a, b, c, d, rest.
  - intros (a & b & c & d & rest & -> & E & Hg). simpl. rewrite E.
    by rewrite Hg.
Qed.

Lemma row_gene_None (l : list string) : row_gene l = None ↔ length l < 4.
Proof.
  destruct l as [|a [|b [|c [|d rest]]]]; simpl; try (split; [lia|done]).
  destruct (sanitize_id_total a) as [k ->]. split; [done|lia].
Qed.

Lemma load_row_empty (genes : gmap string Gene) :
  load_row genes [] = Err IndexError.
Proof. reflexivity. Qed.

Lemma load_row_short (genes : gmap string Gene) (l : list string) :
  l ≠ [] → length l < 4 → load_row genes l = Err TypeError.
Proof.
  intros Hne Hlen. unfold load_row.
  destruct l as [|a [|b [|c [|d rest]]]]; simpl in *; try done; try lia;
    by destruct (sanitize_id_total a) as [k ->].
Qed.

Lemma load_row_full (genes : gmap string Gene) (a b c d k : string)
    (rest : list string) :
  sanitize_id a = Ok k →
  load_row genes (a :: b :: c :: d :: rest)
  = Ok (<[k := mkGene k b c d]> genes).
Proof. intros E. unfold load_row. simpl. by rewrite E. Qed.

Lemma load_step_empty (st : gmap string Gene * nat) :
  load_step st [] = Err IndexError.
Proof. reflexivity. Qed.

(** A row of one to three fields is counted and leaves the table alone. *)
Lemma load_step_short (st : gmap string Gene * nat) (l : list string) :
  l ≠ [] → length l < 4 → load_step st l = Ok (st.1, st.2 + 1).
Proof.
  intros Hne Hlen. unfold load_step. by rewrite load_row_short.
Qed.

Lemma load_step_nonempty (st : gmap string Gene * nat) (l : list string) :
  l ≠ [] → load_step st l = Ok (step_spec st l).
Proof.
  intros Hne. unfold step_spec.
  destruct (row_gene l) as [g|] eqn:E.
  - apply row_gene_Some in E as (a & b & c & d & rest & -> & E & Hg).
    unfold load_step. rewrite (load_row_full _ _ _ _ _ _ _ E).
    by rewrite Hg.
  - apply row_gene_None in E. by apply load_step_short.
Qed.

Lemma load_rows_ok (st : gmap string Gene * nat) (rows : list (list string)) :
  Forall (λ l, l ≠ []) rows → load_rows st rows = Ok (foldl step_spec st rows).
Proof.
  revert st. induction rows as [|l rows IH]; intros st Hall; [done|].
  inversion Hall; subst. simpl.
  rewrite load_step_nonempty by done. simpl. by apply IH.
Qed.

(** The first empty row ends the load with [IndexError]. *)
Lemma load_rows_abort (st : gmap string Gene * nat)
    (pre post : list (list string)) :
  Forall (λ l, l ≠ []) pre → load_rows st (pre ++ [] :: post) = Err IndexError.
Proof.
  revert st. induction pre as [|l pre IH]; intros st Hall; [done|].
  inversion Hall; subst. simpl.
  rewrite load_step_nonempty by done. simpl. by apply IH.
Qed.

Lemma load_rows_inv (st st' : gmap string Gene * nat)
    (rows : list (list string)) :
  load_rows st rows = Ok st' →
  Forall (λ l, l ≠ []) rows ∧ st' = foldl step_spec st rows.
Proof.
  revert st. induction rows as [|l rows IH]; intros st Hrun.
  - simpl in Hrun. injection Hrun as <-. by split.
  - destruct l as [|a l].
    + simpl in Hrun. discriminate Hrun.
    + simpl in Hrun. rewrite load_step_nonempty in Hrun by done.
      simpl in Hrun. apply IH in Hrun as [Hall ->].
      split; [by constructor|done].
Qed.

(** The number of rows skipped is the number of rows shorter than four. *)
Lemma foldl_step_spec_skipped (st : gmap string Gene * nat)
    (rows : list (list string)) :
  (foldl step_spec st rows).2
  = st.2 + length (filter (λ l, length l < 4) rows).
Proof.
  revert st. induction rows as [|l rows IH]; intros st; simpl; [lia|].
  rewrite IH. unfold step_spec. rewrite filter_cons.
  destruct (row_gene l) as [g|] eqn:E.
  - assert (¬ length l < 4) by (intros ?%row_gene_None; congruence).
    by rewrite decide_False.
  - apply row_gene_None in E. rewrite decide_True by done. simpl. lia.
Qed.

(** Rows that do not carry the key [k] leave its entry alone. *)
Lemma foldl_step_spec_other (st : gmap string Gene * nat)
    (rows : list (list string)) (k : string) :
  Forall (λ l, ∀ g, row_gene l = Some g → g_id g ≠ k) rows →
  (foldl step_spec st rows).1 !! k = st.1 !! k.
Proof.
  revert st. induction rows as [|l rows IH]; intros st Hall; [done|].
  inversion Hall as [|?? Hl Hrest]; subst. simpl. rewrite IH by done.
  unfold step_spec. destruct (row_gene l) as [g|] eqn:E; [|done].
  simpl. apply lookup_insert_ne. by apply Hl.
Qed.

(** Every entry of the final table was there at the start or was put
    there by a row, under the id of its record. *)
Lemma foldl_step_spec_lookup (st : gmap string Gene * nat)
    (rows : list (list string)) (k : string) (g : Gene) :
  (foldl step_spec st rows).1 !! k = Some g →
  st.1 !! k = Some g ∨ (g_id g = k ∧ ∃ l, l ∈ rows ∧ row_gene l = Some g).
Proof.
  revert st. induction rows as [|l rows IH]; intros st Hk; [by left|].
  simpl in Hk. apply IH in Hk as [Hk|(Hid & l' & Hin & Hg)].
  - unfold step_spec in Hk. destruct (row_gene l) as [g'|] eqn:E; [|by left].
    simpl in Hk. destruct (decide (g_id g' = k)) as [<-|Hne].
    + rewrite lookup_insert_eq in Hk. injection Hk as <-.
      right. split; [done|]. exists l. split; [by left|done].
    + rewrite lookup_insert_ne in Hk by done. by left.
  - right. split; [done|]. exists l'. split; [by right|done].
Qed.

Lemma load_file_aborts_on_empty_row (hdr : list string)
    (pre post : list (list string)) :
  Forall (λ l, l ≠ []) pre →
  load_file (hdr :: pre ++ [] :: post) = Err IndexError.
Proof. intros Hpre. simpl. by apply load_rows_abort. Qed.

Lemma load_file_nonempty_rows (hdr : list string) (data : list (list string)) :
  Forall (λ l, l ≠ []) data →
  load_file (hdr :: data) = Ok (foldl step_spec (∅, 0) data).
Proof. intros Hall. simpl. by apply load_rows_ok. Qed.

(** C6: a row with no field at all (what the reader returns for a blank
    line) is not skipped: the load ends with [IndexError], while the same
    file with a row of three fields in its place loads with one row
    skipped. *)
Theorem load_file_empty_row_not_skipped :
  load_file [["id"; "iso"; "foldcount"; "p_value"];
             ["tRNA-Ala-CGC-1-2"; "x"; "1.5"; "0.01"];
             [];
             ["tRNA-Gly-GCC-2-1"; "y"; "2.0"; "0.5"]]
  = Err IndexError ∧
  ∃ t, load_file [["id"; "iso"; "foldcount"; "p_value"];
                  ["tRNA-Ala-CGC-1-2"; "x"; "1.5"; "0.01"];
                  ["tRNA-Leu-AAG-1-1"; "z"; "0.7"];
                  ["tRNA-Gly-GCC-2-1"; "y"; "2.0"; "0.5"]]
       = Ok (t, 1) ∧ size t = 2 ∧ t !! "Leu-AAG-1" = None.
Proof.
  split; [reflexivity|].
  eexists. split; [vm_compute; reflexivity|].
  split; vm_compute; reflexivity.
Qed.

(** C8: when two rows of a file normalize to the same id, the load ends
    without error and the table maps that id to the record of the later
    row (the last row of the file that carries the id). *)
Theorem load_file_last_row_wins (hdr : list string)
    (pre mid post : list (list string))
    (a1 b1 c1 d1 a2 b2 c2 d2 k : string) (x1 x2 : list string) :
  Forall (λ l, l ≠ []) (pre ++ mid ++ post) →
  sanitize_id a1 = Ok k →
  sanitize_id a2 = Ok k →
  Forall (λ l : list string,
            ∀ a, head l = Some a → (4 ≤ length l)%nat → sanitize_id a ≠ Ok k)
         post →
  ∃ t n,
    load_file (hdr :: pre ++ (a1 :: b1 :: c1 :: d1 :: x1)
                   :: mid ++ (a2 :: b2 :: c2 :: d2 :: x2) :: post)
    = Ok (t, n) ∧
    t !! k = Some (mkGene k b2 c2 d2).
Proof.
  intros Hne E1 E2 Hpost.
  apply Forall_app in Hne as [Hpre Hne]. apply Forall_app in Hne as [Hmid Hpo].
  set (r1 := a1 :: b1 :: c1 :: d1 :: x1).
  set (r2 := a2 :: b2 :: c2 :: d2 :: x2).
  rewrite load_file_nonempty_rows.
  2:{ apply Forall_app; split; [done|]. constructor; [done|].
      apply Forall_app; split; [done|]. by constructor. }
  destruct (foldl step_spec (∅, 0) (pre ++ r1 :: mid ++ r2 :: post))
    as [t n] eqn:Et.
  exists t, n. split; [done|].
  change t with (t, n).1. rewrite <- Et.
  rewrite foldl_app. cbn [foldl]. rewrite foldl_app. cbn [foldl].
  rewrite foldl_step_spec_other.
  - unfold step_spec at 1. subst r2. simpl. rewrite E2. simpl.
    apply lookup_insert_eq.
  - eapply Forall_impl; [exact Hpost|]. intros l Hl g Hg Hid.
    apply row_gene_Some in Hg as (a & b & c & d & rest & -> & Ea & _).
    apply (Hl a); [done|simpl; lia|]. by rewrite Ea, Hid.
Qed.

(** [load_file_last_row_wins] on a file of three rows of which the first
    and the last carry the id [Ala-CGC-1]. *)
Lemma load_file_last_row_wins_witness :
  ∃ t n,
    load_file [["id"; "iso"; "foldcount"; "p_value"];
               ["tRNA-Ala-CGC-1-2"; "x"; "1.5"; "0.01"];
               ["tRNA-Gly-GCC-2-1"; "y"; "2.0"; "0.5"];
               ["Ala-CGC-1-7"; "w"; "3.5"; "0.02"; "more"]]
    = Ok (t, n) ∧
    t !! "Ala-CGC-1" = Some (mkGene "Ala-CGC-1" "w" "3.5" "0.02").
Proof.
  apply (load_file_last_row_wins ["id"; "iso"; "foldcount"; "p_value"]
           [] [["tRNA-Gly-GCC-2-1"; "y"; "2.0"; "0.5"]] []
           "tRNA-Ala-CGC-1-2" "x" "1.5" "0.01"
           "Ala-CGC-1-7" "w" "3.5" "0.02" "Ala-CGC-1" [] ["more"]).
  - simpl. by repeat constructor.
  - reflexivity.
  - reflexivity.
  - constructor.
Defined.

(** C10: in a table returned by [load_file] every key is the id of the
    record stored under it, and that record was built from a data row of
    four fields or more: the key is the normalized first field of that
    row and the other three fields of the record are the next three
    fields of the row; hence the [ids] of a dataset built on the table are
    exactly the ids of its stored records. *)
Theorem load_file_keys_are_ids (rows : list (list string))
    (t : gmap string Gene) (n : nat) :
  load_file rows = Ok (t, n) →
  (∀ k g, t !! k = Some g →
     g_id g = k ∧
     ∃ raw iso foldcount p_value rest,
       (raw :: iso :: foldcount :: p_value :: rest) ∈ drop 1 rows ∧
       sanitize_id raw = Ok k ∧
       g = mkGene k iso foldcount p_value) ∧
  (∀ oid name i,
     i ∈ ds_ids (Dataset_init oid t name) ↔ ∃ g, t !! g_id g = Some g ∧ g_id g = i).
Proof.
  intros Hload.
  destruct rows as [|hdr data]; [done|]. simpl in Hload.
  apply load_rows_inv in Hload as [Hne Hst].
  assert (Hkeys : ∀ k g, t !! k = Some g →
            g_id g = k ∧ ∃ l, l ∈ data ∧ row_gene l = Some g).
  { intros k g Hk. change t with (t, n).1 in Hk. rewrite Hst in Hk.
    apply foldl_step_spec_lookup in Hk as [Hk|Hk]; [|done].
    simpl in Hk. by rewrite lookup_empty in Hk. }
  split.
  - intros k g Hk. destruct (Hkeys k g Hk) as (Hid & l & Hin & Hg).
    split; [done|].
    apply row_gene_Some in Hg as (a & b & c & d & rest & -> & Ea & Hg).
    exists a, b, c, d, rest. rewrite <- Hid. by split_and!.
  - intros oid name i. simpl. rewrite elem_of_dom. split.
    + intros [g Hg]. destruct (Hkeys i g Hg) as [Hid _].
      exists g. by rewrite Hid.
    + intros (g & Hg & <-). by exists g.
Qed.

(** [load_file_keys_are_ids] on the file of dataset A of the test
    fixtures. *)
Lemma load_file_keys_are_ids_witness :
  ∃ t n,
    load_file [["id"; "iso"; "foldcount"; "p_value"];
               ["tRNA-Delta-ABC-1-2"; ""; "A-Delta-fc"; "A-Delta-p"];
               ["tRNA-Beta-DEF-2-x"; ""; "A-Beta-fc"; "A-Beta-p"]]
    = Ok (t, n) ∧
    (∀ k g, t !! k = Some g →
       g_id g = k ∧
       ∃ raw iso foldcount p_value rest,
         (raw :: iso :: foldcount :: p_value :: rest)
         ∈ drop 1 [["id"; "iso"; "foldcount"; "p_value"];
                   ["tRNA-Delta-ABC-1-2"; ""; "A-Delta-fc"; "A-Delta-p"];
                   ["tRNA-Beta-DEF-2-x"; ""; "A-Beta-fc"; "A-Beta-p"]] ∧
         sanitize_id raw = Ok k ∧
         g = mkGene k iso foldcount p_value) ∧
    (∀ oid name i,
       i ∈ ds_ids (Dataset_init oid t name)
       ↔ ∃ g, t !! g_id g = Some g ∧ g_id g = i).
Proof.
  eexists _, _. split; [vm_compute; reflexivity|].
  refine (load_file_keys_are_ids
    [["id"; "iso"; "foldcount"; "p_value"];
     ["tRNA-Delta-ABC-1-2"; ""; "A-Delta-fc"; "A-Delta-p"];
     ["tRNA-Beta-DEF-2-x"; ""; "A-Beta-fc"; "A-Beta-p"]] _ _ _).
  vm_compute; reflexivity.
Defined.

(** ** Generators *)

Lemma raised_gen_seq {A} (g1 g2 : gen A) :
  raised g1 = None → raised (gen_seq g1 g2) = raised g2.
Proof. induction g1; simpl; auto; discriminate. Qed.

Lemma yielded_gen_seq {A} (g1 g2 : gen A) :
  raised g1 = None → yielded (gen_seq g1 g2) = (yielded g1 ++ yielded g2)%list.
Proof.
  induction g1 as [|a g1 IH|e]; simpl; [done| |discriminate].
  intros Hr. by rewrite IH.
Qed.

(** A loop whose body never raises yields what its turns yield, in turn. *)
Lemma gen_for_no_raise {A B} (l : list A) (body : A → gen B) :
  (∀ x, x ∈ l → raised (body x) = None) →
  raised (gen_for l body) = None ∧
  yielded (gen_for l body) = l ≫= (λ x, yielded (body x)).
Proof.
  induction l as [|x l IH]; intros Hbody; [done|].
  destruct IH as [IHr IHy].
  { intros y Hy. apply Hbody. by right. }
  assert (Hx : raised (body x) = None) by (apply Hbody; by left).
  change (gen_for (x :: l) body) with (gen_seq (body x) (gen_for l body)).
  rewrite raised_gen_seq, yielded_gen_seq by done.
  split; [done|]. by rewrite bind_cons, IHy.
Qed.

(** ** [sorted] *)

Section sorted_by.
Context {A : Type} (key : A → string).

Lemma insert_by_perm (x : A) (l : list A) : insert_by key x l ≡ₚ x :: l.
Proof.
  induction l as [|y l IH]; simpl; [done|].
  case_decide; [done|]. rewrite IH. apply Permutation_swap.
Qed.

Lemma sorted_by_perm (l : list A) : sorted_by key l ≡ₚ l.
Proof.
  induction l as [|x l IH]; simpl; [done|].
  by rewrite insert_by_perm, IH.
Qed.

Lemma insert_by_sorted (x : A) (l : list A) :
  StronglySorted (key_le key) l → StronglySorted (key_le key) (insert_by key x l).
Proof.
  induction l as [|y l IH]; simpl; intros Hs.
  - by repeat constructor.
  - apply StronglySorted_cons in Hs as [Hy Hs].
    case_decide as Hxy.
    + apply StronglySorted_cons. split; [|by apply StronglySorted_cons].
      constructor; [done|].
      eapply Forall_impl; [exact Hy|]. intros z Hz. unfold key_le in *.
      by etrans.
    + apply StronglySorted_cons. split; [|by apply IH].
      rewrite insert_by_perm. constructor; [|done].
      unfold key_le. by destruct (total String.le (key x) (key y)).
Qed.

Lemma sorted_by_sorted (l : list A) : StronglySorted (key_le key) (sorted_by key l).
Proof.
  induction l as [|x l IH]; simpl; [constructor|]. by apply insert_by_sorted.
Qed.

End sorted_by.

Lemma str_le_ne_lt (a b : string) : String.le a b → a ≠ b → str_lt a b.
Proof.
  unfold String.le, String.leb, str_lt, String.ltb. intros Hle Hne.
  destruct (String.compare a b) eqn:E; [|done|done].
  by apply String.compare_eq_iff in E.
Qed.

Lemma StronglySorted_strict (l : list string) :
  NoDup l → StronglySorted String.le l → StronglySorted str_lt l.
Proof.
  induction l as [|x l IH]; intros Hnd Hs; [constructor|].
  apply NoDup_cons in Hnd as [Hx Hnd].
  apply StronglySorted_cons in Hs as [Hall Hs].
  apply StronglySorted_cons. split; [|by apply IH].
  apply Forall_forall. intros y Hy. apply str_le_ne_lt.
  - by eapply Forall_forall in Hall.
  - by intros ->.
Qed.

Lemma sorted_perm (l : list string) : sorted l ≡ₚ l.
Proof. apply sorted_by_perm. Qed.

(** Sorting a list of distinct strings gives a strictly ascending list. *)
Lemma sorted_strict (l : list string) : NoDup l → StronglySorted str_lt (sorted l).
Proof.
  intros Hnd. apply StronglySorted_strict.
  - by rewrite sorted_perm.
  - apply (sorted_by_sorted (λ s, s)).
Qed.

(** ** The set algebra of [_calc_ids] *)

Lemma elem_of_intersection_all (i : string) (s : gset string)
    (others : list (gset string)) :
  i ∈ intersection_all s others ↔ i ∈ s ∧ ∀ o, o ∈ others → i ∈ o.
Proof.
  unfold intersection_all. revert s.
  induction others as [|o others IH]; intros s; simpl.
  - split; [|by intros [? _]]. intros Hi. split; [done|].
    intros o Ho. by apply elem_of_nil in Ho.
  - rewrite IH, elem_of_intersection. split.
    + intros [[Hs Ho] Hall]. split; [done|].
      intros o' [->|Ho']%elem_of_cons; auto.
    + intros [Hs Hall]. split; [split; [done|]|].
      * apply Hall. by left.
      * intros o' Ho'. apply Hall. by right.
Qed.

Lemma elem_of_difference_all (i : string) (s : gset string)
    (others : list (gset string)) :
  i ∈ difference_all s others ↔ i ∈ s ∧ ∀ o, o ∈ others → i ∉ o.
Proof.
  unfold difference_all. revert s.
  induction others as [|o others IH]; intros s; simpl.
  - split; [|by intros [? _]]. intros Hi. split; [done|].
    intros o Ho. by apply elem_of_nil in Ho.
  - rewrite IH, elem_of_difference. split.
    + intros [[Hs Ho] Hall]. split; [done|].
      intros o' [->|Ho']%elem_of_cons; auto.
    + intros [Hs Hall]. split; [split; [done|]|].
      * apply Hall. by left.
      * intros o' Ho'. apply Hall. by right.
Qed.

Lemma calc_ids_ok (keep exclude : list Dataset) :
  keep ≠ [] → _calc_ids keep exclude = Ok (ids_of keep exclude).
Proof. by destruct keep. Qed.

Lemma calc_ids_empty (exclude : list Dataset) :
  _calc_ids [] exclude = Err IndexError.
Proof. reflexivity. Qed.

Lemma elem_of_ids_of (keep exclude : list Dataset) (i : string) :
  keep ≠ [] →
  i ∈ ids_of keep exclude ↔
    (∀ d, d ∈ keep → i ∈ ds_ids d) ∧ (∀ d, d ∈ exclude → i ∉ ds_ids d).
Proof.
  intros Hne. unfold ids_of. rewrite sorted_perm, elem_of_elements.
  rewrite elem_of_difference_all, elem_of_intersection_all.
  destruct keep as [|d0 keep]; [done|]. simpl. split.
  - intros [[H0 Hk] He]. split.
    + intros d [->|Hd]%elem_of_cons; [done|].
      apply Hk. by apply list_elem_of_fmap_2.
    + intros d Hd. apply He. by apply list_elem_of_fmap_2.
  - intros [Hk He]. split; [split|].
    + apply Hk. by left.
    + intros o (d & -> & Hd)%list_elem_of_fmap. apply Hk. by right.
    + intros o (d & -> & Hd)%list_elem_of_fmap. by apply He.
Qed.

Lemma ids_of_sorted (keep exclude : list Dataset) :
  StronglySorted str_lt (ids_of keep exclude).
Proof. apply sorted_strict, NoDup_elements. Qed.

(** ** Combinations *)

Local Open Scope list_scope.

Lemma sum_below_ext (f g : nat → nat) (m : nat) :
  (∀ k, k < m → f k = g k) → sum_below f m = sum_below g m.
Proof.
  induction m as [|m IH]; intros Hfg; simpl; [done|].
  rewrite IH, Hfg; [done|lia|]. intros k Hk. apply Hfg. lia.
Qed.

Lemma sum_below_add (f g : nat → nat) (m : nat) :
  sum_below (λ k, f k + g k) m = sum_below f m + sum_below g m.
Proof. induction m as [|m IH]; simpl; lia. Qed.

Lemma sum_below_shift (f : nat → nat) (m : nat) :
  sum_below f (S m) = f 0 + sum_below (λ k, f (S k)) m.
Proof. induction m as [|m IH]; simpl in *; lia. Qed.

Lemma sum_below_zero (m : nat) : sum_below (λ _, 0) m = 0.
Proof. induction m as [|m IH]; simpl; lia. Qed.

Lemma length_bind_seq {B} (F : nat → list B) (m : nat) :
  length (seq 0 m ≫= F) = sum_below (λ k, length (F k)) m.
Proof.
  induction m as [|m IH]; [done|].
  by rewrite seq_S, bind_app, length_app, IH, bind_singleton.
Qed.

Lemma bind_ext_in {A B} (f g : A → list B) (l : list A) :
  (∀ x, x ∈ l → f x = g x) → l ≫= f = l ≫= g.
Proof.
  induction l as [|x l IH]; intros Hfg; [done|].
  rewrite !bind_cons, IH, Hfg; [done|by left|].
  intros y Hy. apply Hfg. by right.
Qed.

Lemma bind_singleton_fmap {A B} (f : A → B) (l : list A) :
  l ≫= (λ x, [f x]) = f <$> l.
Proof. induction l as [|x l IH]; [done|]. by rewrite bind_cons, IH. Qed.

Lemma fmap_bind_seq {A B} (f : A → B) (F : nat → list A) (l : list nat) :
  f <$> (l ≫= F) = l ≫= (λ k, f <$> F k).
Proof.
  induction l as [|x l IH]; [done|].
  by rewrite !bind_cons, fmap_app, IH.
Qed.

Section combinations.
Context {A : Type}.
Implicit Types (l c : list A) (x : A) (r : nat).

Lemma combinations_0 l : combinations l 0 = [[]].
Proof. by destruct l. Qed.

Lemma combinations_cons_S x l r :
  combinations (x :: l) (S r)
  = (cons x <$> combinations l r) ++ combinations l (S r).
Proof. reflexivity. Qed.

(** The combinations of size [r] are the subsequences of length [r]. *)
Lemma elem_of_combinations l r c :
  c ∈ combinations l r ↔ c `sublist_of` l ∧ length c = r.
Proof.
  revert r c. induction l as [|x l IH]; intros r c.
  - rewrite sublist_nil_r. destruct r; simpl.
    + rewrite list_elem_of_singleton. split; [by intros ->|by intros [-> _]].
    + rewrite elem_of_nil. split; [done|]. by intros [-> ?].
  - destruct r as [|r].
    + rewrite combinations_0, list_elem_of_singleton. split.
      * intros ->. split; [apply sublist_nil_l|done].
      * intros [_ Hlen]. by apply nil_length_inv.
    + rewrite combinations_cons_S, elem_of_app, list_elem_of_fmap.
      rewrite sublist_cons_r. split.
      * intros [(c' & -> & Hc')|Hc].
        -- apply IH in Hc' as [Hs Hl]. split; [right; eauto|simpl; lia].
        -- apply IH in Hc as [Hs Hl]. split; [by left|done].
      * intros [[Hs|(c' & -> & Hs)] Hlen].
        -- right. by apply IH.
        -- left. exists c'. split; [done|]. apply IH. split; [done|].
           simpl in Hlen. lia.
Qed.

Lemma combinations_length l r c : c ∈ combinations l r → length c = r.
Proof. by intros [_ ?]%elem_of_combinations. Qed.

Lemma combinations_too_long l r : length l < r → combinations l r = [].
Proof.
  intros Hlen. destruct (combinations l r) as [|c cs] eqn:E; [done|].
  assert (Hc : c ∈ combinations l r) by (rewrite E; by left).
  apply elem_of_combinations in Hc as [Hs Hl].
  apply sublist_length in Hs. lia.
Qed.

Lemma NoDup_combinations l r : NoDup l → NoDup (combinations l r).
Proof.
  intros Hnd. revert r. induction l as [|x l IH]; intros r.
  - destruct r; simpl; [apply NoDup_singleton|constructor].
  - apply NoDup_cons in Hnd as [Hx Hnd]. destruct r as [|r].
    + rewrite combinations_0. apply NoDup_singleton.
    + rewrite combinations_cons_S. apply NoDup_app. split_and!.
      * apply NoDup_fmap_2_strong; [|by apply IH].
        by intros c1 c2 _ _ [= ->].
      * intros c (c' & -> & _)%list_elem_of_fmap
          [Hs _]%elem_of_combinations.
        apply Hx. apply (sublist_subseteq _ _ Hs). by left.
      * by apply IH.
Qed.

(** Two subsequences of a duplicate-free list with the same members are
    the same list. *)
Lemma sublist_same_members l c1 c2 :
  NoDup l → c1 `sublist_of` l → c2 `sublist_of` l →
  (∀ x, x ∈ c1 ↔ x ∈ c2) → c1 = c2.
Proof.
  intros Hnd. revert c1 c2.
  induction l as [|x l IH]; intros c1 c2 H1 H2 Hm.
  - apply sublist_nil_r in H1, H2. congruence.
  - apply NoDup_cons in Hnd as [Hx Hnd].
    apply sublist_cons_r in H1 as [H1|(c1' & -> & H1)];
      apply sublist_cons_r in H2 as [H2|(c2' & -> & H2)].
    + by apply IH.
    + exfalso. apply Hx, (sublist_subseteq _ _ H1), Hm. by left.
    + exfalso. apply Hx, (sublist_subseteq _ _ H2), Hm. by left.
    + f_equal. apply IH; [done..|]. intros y. split; intros Hy.
      * assert (Hy' : y ∈ x :: c2') by (apply Hm; by right).
        apply elem_of_cons in Hy' as [->|]; [|done].
        destruct Hx. by apply (sublist_subseteq _ _ H1).
      * assert (Hy' : y ∈ x :: c1') by (apply Hm; by right).
        apply elem_of_cons in Hy' as [->|]; [|done].
        destruct Hx. by apply (sublist_subseteq _ _ H2).
Qed.

Lemma count_combinations l m :
  length l < m → sum_below (λ k, length (combinations l k)) m = 2 ^ length l.
Proof.
  revert m. induction l as [|x l IH]; intros m Hm.
  - destruct m as [|m]; [simpl in Hm; lia|].
    rewrite sum_below_shift. simpl. by rewrite sum_below_zero.
  - destruct m as [|m]; [lia|]. simpl in Hm.
    rewrite sum_below_shift, combinations_0.
    rewrite (sum_below_ext _
      (λ k, length (combinations l k) + length (combinations l (S k)))).
    2:{ intros k _. by rewrite combinations_cons_S, length_app, length_fmap. }
    rewrite sum_below_add, IH by lia.
    pose proof (IH (S m) ltac:(lia)) as HS.
    rewrite sum_below_shift, combinations_0 in HS.
    simpl in *. lia.
Qed.

Lemma elem_of_all_combinations l c :
  c ∈ all_combinations l ↔ c `sublist_of` l ∧ c ≠ [].
Proof.
  unfold all_combinations. rewrite list_elem_of_bind. split.
  - intros (k & [Hs Hl]%elem_of_combinations & _). split; [done|].
    intros ->. simpl in Hl. lia.
  - intros [Hs Hne]. exists (length c - 1).
    assert (length c ≠ 0) by (by destruct c).
    pose proof (sublist_length _ _ Hs).
    split; [apply elem_of_combinations; split; [done|lia]|].
    apply elem_of_seq. lia.
Qed.

Lemma NoDup_all_combinations l : NoDup l → NoDup (all_combinations l).
Proof.
  intros Hnd. apply NoDup_bind.
  - intros k1 k2 c _ _ H1%combinations_length H2%combinations_length. lia.
  - intros k _. by apply NoDup_combinations.
  - apply NoDup_seq.
Qed.

(** There are [2 ^ n - 1] of them for a pool of [n]. *)
Lemma length_all_combinations l :
  length (all_combinations l) = 2 ^ length l - 1.
Proof.
  unfold all_combinations. rewrite length_bind_seq.
  pose proof (count_combinations l (S (length l)) ltac:(lia)) as HS.
  rewrite sum_below_shift, combinations_0 in HS.
  rewrite (sum_below_ext _ (λ k, length (combinations l (S k)))).
  - simpl in HS. lia.
  - intros k _. by rewrite Nat.add_1_r.
Qed.

Lemma all_combinations_nil : all_combinations (@nil A) = [].
Proof. reflexivity. Qed.

Lemma all_equal_sorted (n : nat) (ns : list nat) :
  Forall (λ m, m = n) ns → StronglySorted le ns.
Proof.
  induction 1 as [|m ns -> Hall IH]; [constructor|].
  apply StronglySorted_cons. split; [|done].
  eapply Forall_impl; [exact Hall|]. intros ? ->. done.
Qed.

Lemma combinations_from_sizes l a n :
  StronglySorted le
    (length <$> (seq a n ≫= (λ k, combinations l (k + 1)))).
Proof.
  revert a. induction n as [|n IH]; intros a; [constructor|].
  cbn [seq]. rewrite bind_cons, fmap_app. apply StronglySorted_app. split_and!.
  - intros n1 n2 (c1 & -> & H1)%list_elem_of_fmap
      (c2 & -> & H2)%list_elem_of_fmap.
    apply combinations_length in H1.
    apply list_elem_of_bind in H2 as (k & H2%combinations_length & Hk).
    apply elem_of_seq in Hk. lia.
  - apply (all_equal_sorted (a + 1)). apply Forall_forall.
    intros m (c & -> & Hc)%list_elem_of_fmap. by apply combinations_length in Hc.
  - apply IH.
Qed.

(** Smaller combinations come first. *)
Lemma all_combinations_sizes l :
  StronglySorted le (length <$> all_combinations l).
Proof. apply combinations_from_sizes. Qed.

End combinations.

(** ** Sets of datasets *)

Lemma filter_all {A} (P : A → Prop) `{∀ x, Decision (P x)} (l : list A) :
  Forall P l → filter P l = l.
Proof.
  induction 1 as [|x l Hx Hall IH]; [done|].
  by rewrite filter_cons_True, IH.
Qed.

Lemma oids_cons (d : Dataset) (l : list Dataset) :
  oids (d :: l) = ds_oid d :: oids l.
Proof. reflexivity. Qed.

Lemma elem_of_oids (d : Dataset) (l : list Dataset) : d ∈ l → ds_oid d ∈ oids l.
Proof. apply list_elem_of_fmap_2. Qed.

Lemma distinct_NoDup (l : list Dataset) : NoDup (oids l) → distinct l = l.
Proof.
  induction l as [|d l IH]; intros Hnd; [done|].
  rewrite oids_cons in Hnd. apply NoDup_cons in Hnd as [Hd Hnd].
  simpl. rewrite IH by done. f_equal. apply filter_all, Forall_forall.
  intros d' Hd' Heq. apply Hd. rewrite <- Heq. by apply elem_of_oids.
Qed.

(** Within a set, a member is determined by its identity. *)
Lemma oid_inj (ds : list Dataset) (d d' : Dataset) :
  NoDup (oids ds) → d ∈ ds → d' ∈ ds → ds_oid d = ds_oid d' → d = d'.
Proof.
  induction ds as [|x ds IH]; intros Hnd Hd Hd' Heq.
  - by apply elem_of_nil in Hd.
  - rewrite oids_cons in Hnd. apply NoDup_cons in Hnd as [Hx Hnd].
    apply elem_of_cons in Hd as [->|Hd]; apply elem_of_cons in Hd' as [->|Hd'].
    + done.
    + destruct Hx. rewrite Heq. by apply elem_of_oids.
    + destruct Hx. rewrite <- Heq. by apply elem_of_oids.
    + by apply IH.
Qed.

Lemma NoDup_oids_sublist (c ds : list Dataset) :
  c `sublist_of` ds → NoDup (oids ds) → NoDup (oids c).
Proof.
  intros Hs Hnd. apply (sublist_NoDup _ _ Hnd). unfold oids.
  by apply fmap_sublist.
Qed.

Lemma NoDup_of_oids (ds : list Dataset) : NoDup (oids ds) → NoDup ds.
Proof. apply NoDup_fmap_1. Qed.

Section set_lemmas.
Context `{SetOrder}.

Lemma set_of_perm (c : list Dataset) : NoDup (oids c) → set_of c ≡ₚ c.
Proof.
  intros Hnd. unfold set_of. by rewrite set_iter_perm, distinct_NoDup.
Qed.

Lemma set_of_nonempty (c : list Dataset) : c ≠ [] → set_of c ≠ [].
Proof.
  intros Hne Hnil. unfold set_of in Hnil.
  pose proof (set_iter_perm (distinct c)) as Hp. rewrite Hnil in Hp.
  apply Permutation_nil_l in Hp. by destruct c.
Qed.

Lemma set_of_subseteq (c : list Dataset) (d : Dataset) : d ∈ set_of c → d ∈ c.
Proof.
  unfold set_of. rewrite set_iter_perm.
  induction c as [|x c IH]; simpl; [done|].
  intros [->|Hd]%elem_of_cons; [by left|].
  right. apply IH. by apply list_elem_of_filter in Hd as [_ ?].
Qed.

Lemma set_diff_perm (a b : list Dataset) :
  set_diff a b ≡ₚ filter (λ d, ds_oid d ∉ oids b) a.
Proof. apply set_iter_perm. Qed.

Lemma elem_of_set_diff (a b : list Dataset) (d : Dataset) :
  d ∈ set_diff a b ↔ d ∈ a ∧ ds_oid d ∉ oids b.
Proof. rewrite set_diff_perm, list_elem_of_filter. tauto. Qed.

(** The set of datasets of a collection never holds an identity twice:
    it starts empty, and [add] keeps it so. *)
Lemma DatasetCollection_init_NoDup :
  NoDup (oids (datasets DatasetCollection_init)).
Proof. constructor. Qed.

Lemma DatasetCollection_add_NoDup (self : DatasetCollection) (d : Dataset) :
  NoDup (oids (datasets self)) →
  NoDup (oids (datasets (DatasetCollection_add self d))).
Proof.
  intros Hnd. simpl. unfold set_add. case_decide as Hd; [done|].
  unfold oids. rewrite set_iter_perm, fmap_app. apply NoDup_app.
  split_and!; [done| |apply NoDup_singleton].
  intros o Ho ->%list_elem_of_singleton. by apply Hd.
Qed.

(** Datasets made by [Dataset(genes, name)] have the keys of their table
    as [ids], and [add] keeps a collection of such datasets so. *)
Lemma DatasetCollection_add_ids (self : DatasetCollection)
    (oid : nat) (genes : gmap string Gene) (name : string) :
  Forall (λ d, ds_ids d = dom (ds_genes d)) (datasets self) →
  Forall (λ d, ds_ids d = dom (ds_genes d))
         (datasets (DatasetCollection_add self (Dataset_init oid genes name))).
Proof.
  intros Hall. simpl. unfold set_add. case_decide; [done|].
  rewrite set_iter_perm. apply Forall_app. split; [done|].
  by constructor.
Qed.

(** A set and what is left of [ds] without it make up [ds]. *)
Lemma set_diff_complement (ds keep : list Dataset) :
  NoDup (oids ds) → NoDup keep → (∀ d, d ∈ keep → d ∈ ds) →
  keep ++ set_diff ds keep ≡ₚ ds.
Proof.
  intros Hnd Hk Hsub.
  rewrite set_diff_perm.
  rewrite <- (filter_app_complement (λ d, ds_oid d ∈ oids keep) ds) at 2.
  apply Permutation_app; [|done].
  apply NoDup_Permutation; [done| |].
  - by apply NoDup_filter, NoDup_of_oids.
  - intros d. rewrite list_elem_of_filter. split.
    + intros Hd. split; [by apply elem_of_oids|by apply Hsub].
    + intros [(d' & Heq & Hd')%list_elem_of_fmap Hd].
      by rewrite (oid_inj ds d d' Hnd Hd (Hsub _ Hd') Heq).
Qed.

End set_lemmas.

(** ** Enumeration of the slices *)

Section slices.
Context `{SetOrder}.

Lemma DataSlice_init_ok (ds c : list Dataset) :
  c ≠ [] →
  DataSlice_init (set_of c) (set_diff ds (set_of c)) = Ok (slice_of ds c).
Proof.
  intros Hne. unfold DataSlice_init.
  by rewrite calc_ids_ok by by apply set_of_nonempty.
Qed.

(** [slices] raises nothing and yields the slice of each combination, in
    the order of [all_combinations]. *)
Lemma slices_eq (self : DatasetCollection) :
  raised (DatasetCollection_slices self) = None ∧
  yielded (DatasetCollection_slices self)
  = slice_of (datasets self) <$> all_combinations (datasets self).
Proof.
  set (ds := datasets self).
  assert (Hinner : ∀ l,
    raised (gen_for (combinations ds (l + 1)) (λ c,
              yield (DataSlice_init (set_of c) (set_diff ds (set_of c)))))
    = None ∧
    yielded (gen_for (combinations ds (l + 1)) (λ c,
              yield (DataSlice_init (set_of c) (set_diff ds (set_of c)))))
    = slice_of ds <$> combinations ds (l + 1)).
  { intros l.
    assert (Hc : ∀ c, c ∈ combinations ds (l + 1) → c ≠ []).
    { intros c Hlen%combinations_length ->. simpl in Hlen. lia. }
    destruct (gen_for_no_raise (combinations ds (l + 1)) (λ c,
      yield (DataSlice_init (set_of c) (set_diff ds (set_of c)))))
      as [Hr Hy].
    - intros c Hin. by rewrite DataSlice_init_ok by by apply Hc.
    - split; [done|]. rewrite Hy, <- bind_singleton_fmap.
      apply bind_ext_in. intros c Hin.
      by rewrite DataSlice_init_ok by by apply Hc. }
  unfold DatasetCollection_slices. fold ds.
  destruct (gen_for_no_raise (seq 0 (length ds)) (λ l,
    gen_for (combinations ds (l + 1)) (λ c,
      yield (DataSlice_init (set_of c) (set_diff ds (set_of c))))))
    as [Hr Hy].
  - intros l _. apply Hinner.
  - split; [done|]. rewrite Hy. unfold all_combinations.
    rewrite fmap_bind_seq. apply bind_ext_in. intros l _. apply Hinner.
Qed.

(** A yielded slice is the slice of a non-empty subsequence of the
    datasets. *)
Lemma elem_of_slices (self : DatasetCollection) (s : DataSlice) :
  s ∈ yielded (DatasetCollection_slices self) ↔
  ∃ c, c `sublist_of` datasets self ∧ c ≠ [] ∧ s = slice_of (datasets self) c.
Proof.
  rewrite (proj2 (slices_eq self)), list_elem_of_fmap.
  split.
  - intros (c & -> & [Hs Hne]%elem_of_all_combinations). by exists c.
  - intros (c & Hs & Hne & ->). exists c. split; [done|].
    by apply elem_of_all_combinations.
Qed.

Lemma slice_of_ids_members (ds c : list Dataset) :
  c ≠ [] →
  ∀ i, i ∈ sl_ids (slice_of ds c) ↔
    (∀ d, d ∈ sl_keep (slice_of ds c) → i ∈ ds_ids d) ∧
    (∀ d, d ∈ sl_exclude (slice_of ds c) → i ∉ ds_ids d).
Proof.
  intros Hne i. simpl. by apply elem_of_ids_of, set_of_nonempty.
Qed.

(** C1: the ids of a slice that [slices] yields are strictly ascending,
    without duplicates, and are exactly the ids that every dataset kept
    has and no dataset excluded has (the intersection over [keep], which is
    not empty, minus the union over [exclude]). *)
Theorem slice_ids_partition (self : DatasetCollection) (s : DataSlice) :
  s ∈ yielded (DatasetCollection_slices self) →
  sl_keep s ≠ [] ∧
  StronglySorted str_lt (sl_ids s) ∧
  NoDup (sl_ids s) ∧
  ∀ i, i ∈ sl_ids s ↔
    (∀ d, d ∈ sl_keep s → i ∈ ds_ids d) ∧
    (∀ d, d ∈ sl_exclude s → i ∉ ds_ids d).
Proof.
  intros (c & Hs & Hne & ->)%elem_of_slices.
  split_and!.
  - by apply set_of_nonempty.
  - apply ids_of_sorted.
  - simpl. unfold ids_of. rewrite sorted_perm. apply NoDup_elements.
  - by apply slice_of_ids_members.
Qed.

(** C3: for a slice that [slices] yields, [keep] is not empty, no dataset
    is in both [keep] and [exclude], and the two together are the
    datasets of the collection. *)
Theorem slice_keep_exclude_partition (self : DatasetCollection) (s : DataSlice) :
  NoDup (oids (datasets self)) →
  s ∈ yielded (DatasetCollection_slices self) →
  sl_keep s ≠ [] ∧
  (∀ d, d ∈ sl_keep s → d ∉ sl_exclude s) ∧
  (∀ d, d ∈ datasets self ↔ d ∈ sl_keep s ∨ d ∈ sl_exclude s) ∧
  sl_keep s ++ sl_exclude s ≡ₚ datasets self.
Proof.
  intros Hnd (c & Hs & Hne & ->)%elem_of_slices. simpl.
  pose proof (NoDup_oids_sublist _ _ Hs Hnd) as Hndc.
  pose proof (set_of_perm c Hndc) as Hp.
  assert (Hunion : set_of c ++ set_diff (datasets self) (set_of c)
                   ≡ₚ datasets self).
  { apply set_diff_complement; [done| |].
    - rewrite Hp. by apply NoDup_of_oids.
    - intros d Hd. rewrite Hp in Hd. by apply (sublist_subseteq _ _ Hs). }
  split_and!.
  - by apply set_of_nonempty.
  - intros d Hd [_ Hex]%elem_of_set_diff. by apply Hex, elem_of_oids.
  - intros d. rewrite <- elem_of_app. by rewrite Hunion.
  - done.
Qed.

End slices.

Section enumeration.
Context `{SetOrder}.

Lemma slice_of_keep_members (ds c : list Dataset) (d : Dataset) :
  NoDup (oids ds) → c `sublist_of` ds →
  d ∈ sl_keep (slice_of ds c) ↔ d ∈ c.
Proof.
  intros Hnd Hs. simpl.
  by rewrite (set_of_perm c (NoDup_oids_sublist _ _ Hs Hnd)).
Qed.

Lemma slice_of_exclude_members (ds c : list Dataset) (d : Dataset) :
  NoDup (oids ds) → c `sublist_of` ds →
  d ∈ sl_exclude (slice_of ds c) ↔ d ∈ ds ∧ d ∉ c.
Proof.
  intros Hnd Hs. simpl. rewrite elem_of_set_diff.
  pose proof (set_of_perm c (NoDup_oids_sublist _ _ Hs Hnd)) as Hp.
  split; intros [Hd Hn]; (split; [done|]).
  - intros Hc. apply Hn, elem_of_oids. by rewrite Hp.
  - intros (d' & Heq & Hd')%list_elem_of_fmap. rewrite Hp in Hd'.
    apply Hn.
    by rewrite (oid_inj ds d d' Hnd Hd (sublist_subseteq _ _ Hs _ Hd') Heq).
Qed.

Lemma slice_of_keep_length (ds c : list Dataset) :
  NoDup (oids ds) → c `sublist_of` ds →
  length (sl_keep (slice_of ds c)) = length c.
Proof.
  intros Hnd Hs. simpl.
  by rewrite (set_of_perm c (NoDup_oids_sublist _ _ Hs Hnd)).
Qed.

(** The members of [ds] that are in [S], in the order of [ds]. *)
Lemma subset_as_sublist (ds S : list Dataset) :
  NoDup (oids ds) → S ≠ [] → (∀ d, d ∈ S → d ∈ ds) →
  ∃ c, c `sublist_of` ds ∧ c ≠ [] ∧ ∀ d, d ∈ c ↔ d ∈ S.
Proof.
  intros Hnd Hne Hsub.
  exists (filter (λ d, ds_oid d ∈ oids S) ds).
  assert (Hmem : ∀ d, d ∈ filter (λ d, ds_oid d ∈ oids S) ds ↔ d ∈ S).
  { intros d. rewrite list_elem_of_filter. split.
    - intros [(d' & Heq & Hd')%list_elem_of_fmap Hd].
      by rewrite (oid_inj ds d d' Hnd Hd (Hsub _ Hd') Heq).
    - intros Hd. split; [by apply elem_of_oids|by apply Hsub]. }
  split_and!; [apply sublist_filter| |done].
  destruct S as [|d0 S]; [done|]. intros Hnil.
  assert (Hd0 : d0 ∈ filter (λ d, ds_oid d ∈ oids (d0 :: S)) ds)
    by (apply Hmem; by left).
  rewrite Hnil in Hd0. by apply elem_of_nil in Hd0.
Qed.

(** C2: on a collection of [N] datasets [slices] raises nothing and yields
    [2 ^ N - 1] slices; every non-empty subset [S] of the datasets is the
    [keep] of the slice at exactly one position, whose [exclude] is the
    complement of [S]; the slices come in ascending size of [keep]; an
    empty collection yields nothing. *)
Theorem slices_enumerates_subsets (self : DatasetCollection) :
  NoDup (oids (datasets self)) →
  raised (DatasetCollection_slices self) = None ∧
  length (yielded (DatasetCollection_slices self))
  = 2 ^ length (datasets self) - 1 ∧
  (∀ S, S ≠ [] → (∀ d, d ∈ S → d ∈ datasets self) →
     ∃ i s,
       yielded (DatasetCollection_slices self) !! i = Some s ∧
       (∀ d, d ∈ sl_keep s ↔ d ∈ S) ∧
       (∀ d, d ∈ sl_exclude s ↔ d ∈ datasets self ∧ d ∉ S) ∧
       ∀ j s', yielded (DatasetCollection_slices self) !! j = Some s' →
               (∀ d, d ∈ sl_keep s' ↔ d ∈ S) → j = i) ∧
  StronglySorted le
    ((λ s, length (sl_keep s)) <$> yielded (DatasetCollection_slices self)) ∧
  (datasets self = [] → yielded (DatasetCollection_slices self) = []).
Proof.
  intros Hnd. destruct (slices_eq self) as [Hr Hy]. rewrite Hy.
  set (ds := datasets self) in *.
  split_and!.
  - done.
  - by rewrite length_fmap, length_all_combinations.
  - intros S Hne Hsub.
    destruct (subset_as_sublist ds S Hnd Hne Hsub) as (c & Hs & Hcne & Hmem).
    assert (Hin : c ∈ all_combinations ds)
      by by apply elem_of_all_combinations.
    apply list_elem_of_lookup in Hin as [i Hi].
    exists i, (slice_of ds c). split_and!.
    + by rewrite list_lookup_fmap, Hi.
    + intros d. by rewrite slice_of_keep_members, Hmem.
    + intros d. by rewrite slice_of_exclude_members, Hmem.
    + intros j s' Hj Hkeep.
      rewrite list_lookup_fmap in Hj.
      destruct (all_combinations ds !! j) as [c'|] eqn:Hc'; [|done].
      injection Hj as <-.
      assert (Hin' : c' ∈ all_combinations ds)
        by by eapply list_elem_of_lookup_2.
      apply elem_of_all_combinations in Hin' as [Hs' _].
      assert (c' = c) as ->.
      { apply (sublist_same_members ds); [by apply NoDup_of_oids|done..|].
        intros d. by rewrite <- (slice_of_keep_members ds c' d), Hkeep, Hmem. }
      eapply NoDup_lookup; [|exact Hc'|exact Hi].
      by apply NoDup_all_combinations, NoDup_of_oids.
  - rewrite <- list_fmap_compose.
    rewrite (list_fmap_ext _ length (all_combinations ds)).
    + apply all_combinations_sizes.
    + intros i c Hi. simpl.
      assert (Hin : c ∈ all_combinations ds)
        by by eapply list_elem_of_lookup_2.
      apply elem_of_all_combinations in Hin as [Hs _].
      by apply (slice_of_keep_length ds c).
  - intros Hnil. by rewrite Hnil.
Qed.

End enumeration.

(** ** Projection of a slice into rows *)

Lemma mapM_result_ok {A B} (f : A → result B) (l : list A) (ys : list B) :
  Forall2 (λ x y, f x = Ok y) l ys → mapM f l = Ok ys.
Proof.
  induction 1 as [|x y l ys Hxy Hall IH]; [done|].
  simpl. rewrite Hxy. simpl. by rewrite IH.
Qed.

Lemma lookups_exist (ks : list Dataset) (i : string) :
  (∀ d, d ∈ ks → is_Some (ds_genes d !! i)) →
  ∃ gs, Forall2 (λ d g, ds_genes d !! i = Some g) ks gs.
Proof.
  induction ks as [|d ks IH]; intros Hall.
  - exists []. constructor.
  - destruct (Hall d) as [g Hg]; [by left|].
    destruct IH as [gs Hgs]; [intros d' Hd'; apply Hall; by right|].
    exists (g :: gs). by constructor.
Qed.

(** A loop that yields the result of a call that never fails. *)
Lemma gen_for_yield_Forall2 {A B} (l : list A) (f : A → result B)
    (P : A → B → Prop) :
  (∀ x, x ∈ l → ∃ y, f x = Ok y ∧ P x y) →
  raised (gen_for l (λ x, yield (f x))) = None ∧
  Forall2 P l (yielded (gen_for l (λ x, yield (f x)))).
Proof.
  induction l as [|x l IH]; intros Hall.
  - split; [done|constructor].
  - destruct (Hall x) as (y & Hy & HP); [by left|].
    destruct IH as [IHr IHy]; [intros x' Hx'; apply Hall; by right|].
    change (gen_for (x :: l) (λ x, yield (f x)))
      with (gen_seq (yield (f x)) (gen_for l (λ x, yield (f x)))).
    rewrite Hy. simpl. split; [done|]. by constructor.
Qed.

Lemma gene_row_ok (self : DataSlice) (collection : DatasetCollection)
    (i : string) (gs : list Gene) :
  Forall2 (λ d g, ds_genes d !! i = Some g)
          (sorted_by ds_name (sl_keep self)) gs →
  gene_row self collection i
  = Ok ([i; default ""%string (gene_names collection !! i)]
        ++ (g_foldcount <$> gs) ++ (g_p_value <$> gs)).
Proof.
  intros Hgs. unfold gene_row.
  assert (Hf : ∀ f, mapM (λ d, g ← getitem (ds_genes d) i; mret (getattr g f))
                         (sorted_by ds_name (sl_keep self))
                    = Ok ((λ g, getattr g f) <$> gs)).
  { intros f. apply mapM_result_ok.
    induction Hgs as [|d g ks gs' Hd Hall IH]; [constructor|].
    constructor; [|done]. unfold getitem. by rewrite Hd. }
  change (drop 2 Gene_fields) with [F_foldcount; F_p_value].
  rewrite (mapM_result_ok _ _ [g_foldcount <$> gs; g_p_value <$> gs]).
  - simpl. by rewrite app_nil_r.
  - repeat constructor; apply Hf.
Qed.

Section projection.
Context `{SetOrder}.

(** C5: for a slice that [slices] yields, with [ks] the datasets kept
    sorted by name, [fields()] is [id], [iso], then the [foldcount] column
    of each dataset of [ks], then the [p_value] column of each; [genes()]
    raises nothing and yields one row per id of [ids], in order: the id,
    its display name in the name mapping of the collection (empty when
    absent), the [foldcount] of the id in each dataset of [ks], then its
    [p_value] in each. *)
Theorem slice_fields_and_genes (self : DatasetCollection) (s : DataSlice) :
  Forall (λ d, ds_ids d = dom (ds_genes d)) (datasets self) →
  s ∈ yielded (DatasetCollection_slices self) →
  ∃ ks,
    ks = sorted_by ds_name (sl_keep s) ∧
    ks ≡ₚ sl_keep s ∧
    StronglySorted (key_le ds_name) ks ∧
    DataSlice_fields s
    = ["id"; "iso"]%string
      ++ ((λ d, ds_name d ++ " foldcount")%string <$> ks)
      ++ ((λ d, ds_name d ++ " p_value")%string <$> ks) ∧
    raised (DataSlice_genes s self) = None ∧
    Forall2
      (λ i row, ∃ gs,
         Forall2 (λ d g, ds_genes d !! i = Some g) ks gs ∧
         row = [i; default ""%string (gene_names self !! i)]
               ++ (g_foldcount <$> gs) ++ (g_p_value <$> gs))
      (sl_ids s) (yielded (DataSlice_genes s self)).
Proof.
  intros Hwf Hin.
  apply elem_of_slices in Hin as (c & Hs & Hne & ->).
  pose proof (slice_of_ids_members (datasets self) c Hne) as Hids.
  exists (sorted_by ds_name (sl_keep (slice_of (datasets self) c))).
  split_and!.
  - done.
  - apply sorted_by_perm.
  - apply sorted_by_sorted.
  - unfold DataSlice_fields. simpl. by rewrite app_nil_r.
  - apply (gen_for_yield_Forall2 _ _ (λ _ _, True)).
    intros i Hi.
    destruct (lookups_exist
      (sorted_by ds_name (sl_keep (slice_of (datasets self) c))) i)
      as [gs Hgs]; [|rewrite (gene_row_ok _ _ _ _ Hgs); eauto].
    intros d Hd. rewrite sorted_by_perm in Hd.
    apply elem_of_dom. apply Hids in Hi as [Hk _].
    rewrite <- (proj1 (Forall_forall _ _) Hwf d).
    + by apply Hk.
    + by apply (sublist_subseteq _ _ Hs), set_of_subseteq.
  - apply gen_for_yield_Forall2.
    intros i Hi.
    destruct (lookups_exist
      (sorted_by ds_name (sl_keep (slice_of (datasets self) c))) i)
      as [gs Hgs]; [|rewrite (gene_row_ok _ _ _ _ Hgs); eauto].
    intros d Hd. rewrite sorted_by_perm in Hd.
    apply elem_of_dom. apply Hids in Hi as [Hk _].
    rewrite <- (proj1 (Forall_forall _ _) Hwf d).
    + by apply Hk.
    + by apply (sublist_subseteq _ _ Hs), set_of_subseteq.
Qed.

End projection.

(** ** Programs over the objects of a run *)

Lemma run_bind_ok {A B} (m : run A) (f : A → run B) (σ σ' : heap) (a : A) :
  m σ = (Ok a, σ') → (m ≫= f) σ = f a σ'.
Proof. unfold mbind, run_bind. by intros ->. Qed.

Lemma run_bind_err {A B} (m : run A) (f : A → run B) (σ σ' : heap) (e : exn) :
  m σ = (Err e, σ') → (m ≫= f) σ = (Err e, σ').
Proof. unfold mbind, run_bind. by intros ->. Qed.

Lemma run_mapM_cons {A B} (f : A → run B) (x : A) (l : list A) :
  mapM f (x :: l) = (y ← f x; k ← mapM f l; mret (y :: k)).
Proof. reflexivity. Qed.

Lemma result_mapM_cons {A B} (f : A → result B) (x : A) (l : list A) :
  mapM f (x :: l) = (y ← f x; k ← mapM f l; mret (y :: k)).
Proof. reflexivity. Qed.

Lemma heap_ext_refl (σ : heap) : heap_ext σ σ.
Proof. by split_and!. Qed.

Lemma heap_ext_trans (σ1 σ2 σ3 : heap) :
  heap_ext σ1 σ2 → heap_ext σ2 σ3 → heap_ext σ1 σ3.
Proof.
  intros (Hd1 & Hg1 & Hn1 & Hs1) (Hd2 & Hg2 & Hn2 & Hs2).
  split_and!; [congruence|congruence|lia|].
  intros a Ha. rewrite Hs2 by lia. by apply Hs1.
Qed.

(** Objects made later leave the collection as it was. *)
Lemma heap_ext_ok (σ σ' : heap) :
  heap_ok σ → heap_ext σ σ' →
  heap_ok σ' ∧ heap_collection σ' = heap_collection σ.
Proof.
  intros [Hlt Hsome] (Hd & Hg & Hn & Hs).
  unfold heap_ok, heap_collection. rewrite Hd, Hg, Hs by done.
  split; [split; [lia|done]|done].
Qed.

Lemma slice_rep_ext (σ σ' : heap) (so : SliceObj) (s : DataSlice) :
  heap_ext σ σ' → slice_rep σ so s → slice_rep σ' so s.
Proof.
  intros (Hd & Hg & Hn & Hs) (Hk & Hks & He & Hes & Hname & Hids).
  unfold slice_rep. rewrite !Hs by done. split_and!; (done || lia).
Qed.

(** A loop whose turns succeed, keep the collection and only make new
    objects. *)
Lemma mapM_run_spec {A B} (f : A → run B) (C : DatasetCollection)
    (Q : heap → A → B → Prop) (l : list A) :
  (∀ σ σ' x b, heap_ext σ σ' → Q σ x b → Q σ' x b) →
  (∀ σ x, x ∈ l → heap_ok σ → heap_collection σ = C →
     ∃ b σ', f x σ = (Ok b, σ') ∧ heap_ext σ σ' ∧ Q σ' x b) →
  ∀ σ, heap_ok σ → heap_collection σ = C →
     ∃ bs σ', mapM f l σ = (Ok bs, σ') ∧ heap_ext σ σ' ∧ Forall2 (Q σ') l bs.
Proof.
  intros Hmono. induction l as [|x l IH]; intros Hbody σ Hok HC.
  - exists [], σ. split_and!; [done|apply heap_ext_refl|constructor].
  - destruct (Hbody σ x) as (b & σ1 & Hfx & Hext1 & HQ); [by left|done..|].
    destruct (heap_ext_ok _ _ Hok Hext1) as [Hok1 HC1].
    destruct (IH (λ σ y Hy, Hbody σ y (list_elem_of_further _ _ _ Hy)) σ1)
      as (bs & σ2 & Hrest & Hext2 & HQs); [done|congruence|].
    exists (b :: bs), σ2. split_and!.
    + rewrite run_mapM_cons, (run_bind_ok _ _ _ _ _ Hfx).
      by rewrite (run_bind_ok _ _ _ _ _ Hrest).
    + by eapply heap_ext_trans.
    + constructor; [by eapply Hmono|done].
Qed.

Lemma set_iterate_eq (a : nat) (σ : heap) (members : list Dataset) :
  h_sets σ !! a = Some members → set_iterate a σ = (Ok members, σ).
Proof. unfold set_iterate. by intros ->. Qed.

Lemma set_alloc_ext (members : list Dataset) (σ : heap) :
  heap_ext σ (set_alloc members σ).2.
Proof.
  unfold heap_ext. simpl. split_and!; [done|done|lia|].
  intros a Ha. apply lookup_insert_ne. lia.
Qed.

Section objects_spec.
Context `{SetOrder}.

(** The body of the inner loop of [slices]: two new sets and the slice
    object of the combination. *)
Lemma slice_body_spec (C : DatasetCollection) (c : list Dataset) (σ : heap) :
  heap_ok σ → heap_collection σ = C → c ≠ [] →
  ∃ so σ',
    (keep ← set_new c;
     a ← get_datasets;
     exclude ← set_minus a keep;
     DataSlice_new keep exclude) σ = (Ok so, σ') ∧
    heap_ext σ σ' ∧
    slice_rep σ' so (slice_of (datasets C) c).
Proof.
  intros [Hlt [ds Hds]] HC Hne.
  assert (HdsC : datasets C = ds).
  { rewrite <- HC. unfold heap_collection. simpl. by rewrite Hds. }
  rewrite HdsC.
  set (n := h_next σ).
  set (σ1 := (set_alloc (set_of c) σ).2).
  set (σ2 := (set_alloc (set_diff ds (set_of c)) σ1).2).
  assert (Hk1 : h_sets σ1 !! n = Some (set_of c)) by apply lookup_insert_eq.
  assert (Hd1 : h_sets σ1 !! h_datasets σ = Some ds).
  { simpl. rewrite lookup_insert_ne by (fold n; lia). done. }
  assert (Hk2 : h_sets σ2 !! n = Some (set_of c)).
  { simpl. rewrite lookup_insert_ne by (fold n; lia). apply lookup_insert_eq. }
  assert (He2 : h_sets σ2 !! S n = Some (set_diff ds (set_of c)))
    by apply lookup_insert_eq.
  exists (mkSliceObj n (S n) (sl_name (slice_of ds c))
                     (sl_ids (slice_of ds c))), σ2.
  split_and!.
  - rewrite (run_bind_ok _ _ σ σ1 n) by reflexivity.
    rewrite (run_bind_ok _ _ σ1 σ1 (h_datasets σ)) by reflexivity.
    rewrite (run_bind_ok _ _ σ1 σ2 (S n)).
    2:{ unfold set_minus.
        rewrite (run_bind_ok _ _ _ _ _ (set_iterate_eq _ _ _ Hd1)).
        rewrite (run_bind_ok _ _ _ _ _ (set_iterate_eq _ _ _ Hk1)).
        reflexivity. }
    unfold DataSlice_new.
    rewrite (run_bind_ok _ _ _ _ _ (set_iterate_eq _ _ _ Hk2)).
    rewrite (run_bind_ok _ _ _ _ _ (set_iterate_eq _ _ _ He2)).
    rewrite (run_bind_ok _ _ _ _ _ (set_iterate_eq _ _ _ Hk2)).
    rewrite (run_bind_ok _ _ _ _ _ (set_iterate_eq _ _ _ He2)).
    rewrite (run_bind_ok _ _ σ2 σ2 (ids_of (set_of c) (set_diff ds (set_of c)))).
    + reflexivity.
    + unfold of_result. by rewrite calc_ids_ok by by apply set_of_nonempty.
  - eapply heap_ext_trans; apply set_alloc_ext.
  - unfold slice_rep. simpl. fold n.
    split_and!; [lia|exact Hk2|lia|exact He2|done|done].
Qed.

(** [list(collection.slices())] raises nothing, only makes new objects,
    and returns the objects of the slices that [slices] yields. *)
Lemma slices_run_spec (σ : heap) :
  heap_ok σ →
  ∃ ss σ',
    slices_run σ = (Ok ss, σ') ∧
    heap_ext σ σ' ∧
    Forall2 (slice_rep σ') ss
            (yielded (DatasetCollection_slices (heap_collection σ))).
Proof.
  intros Hok. set (C := heap_collection σ).
  assert (Hds : h_sets σ !! h_datasets σ = Some (datasets C)).
  { destruct Hok as [_ [ds Hds]]. unfold C, heap_collection. simpl.
    by rewrite Hds. }
  rewrite (proj2 (slices_eq C)).
  set (ds := datasets C) in *.
  set (body := λ c, (keep ← set_new c;
                     a ← get_datasets;
                     exclude ← set_minus a keep;
                     DataSlice_new keep exclude)).
  destruct (mapM_run_spec
    (λ l, a ← get_datasets; pool ← set_iterate a;
          mapM body (combinations pool (l + 1))) C
    (λ σ l ys, Forall2 (λ c so, slice_rep σ so (slice_of ds c))
                       (combinations ds (l + 1)) ys)
    (seq 0 (length ds))) with (σ := σ) as (yss & σ' & Hrun & Hext & HQ).
  - intros σ1 σ2 l ys Hext HQ. eapply Forall2_impl; [exact HQ|].
    intros c so. by apply slice_rep_ext.
  - intros σ1 l _ Hok1 HC1.
    assert (Hds1 : h_sets σ1 !! h_datasets σ1 = Some ds).
    { destruct Hok1 as [_ [ds1 Hds1]]. unfold ds. rewrite <- HC1.
      unfold heap_collection. simpl. by rewrite Hds1. }
    destruct (mapM_run_spec body C
      (λ σ c so, slice_rep σ so (slice_of ds c))
      (combinations ds (l + 1))) with (σ := σ1)
      as (ys & σ2 & Hrun & Hext & HQ); [| |done..|].
    + intros ????. apply slice_rep_ext.
    + intros σ3 c Hc Hok3 HC3.
      apply (slice_body_spec C c σ3); [done..|].
      intros ->. apply combinations_length in Hc. simpl in Hc. lia.
    + exists ys, σ2. split_and!; [|done..].
      rewrite (run_bind_ok _ _ σ1 σ1 (h_datasets σ1)) by reflexivity.
      by rewrite (run_bind_ok _ _ _ _ _ (set_iterate_eq _ _ _ Hds1)).
  - done.
  - done.
  - exists (concat yss), σ'. split_and!; [|done|].
    + unfold slices_run.
      rewrite (run_bind_ok _ _ σ σ (h_datasets σ)) by reflexivity.
      rewrite (run_bind_ok _ _ _ _ _ (set_iterate_eq _ _ _ Hds)).
      fold ds. fold body. by rewrite (run_bind_ok _ _ _ _ _ Hrun).
    + unfold all_combinations. rewrite fmap_bind_seq.
      clear Hrun. induction HQ as [|l ys ls yss Hl Hrest IH]; [constructor|].
      rewrite bind_cons. simpl. apply Forall2_app; [|exact IH].
      apply Forall2_fmap_r. by apply Forall2_flip.
Qed.

End objects_spec.

(** A loop whose turns touch no object. *)
Lemma mapM_run_pure {A A' B} (g : A → run B) (r : A' → result B) (σ : heap)
    (l : list A) (l' : list A') :
  Forall2 (λ x x', g x σ = (r x', σ)) l l' →
  mapM g l σ = (mapM r l', σ).
Proof.
  induction 1 as [|x x' l l' Hx Hall IH]; [done|].
  rewrite run_mapM_cons, result_mapM_cons.
  destruct (r x') as [b|e].
  - rewrite (run_bind_ok _ _ _ _ _ Hx).
    destruct (mapM r l') as [k|e].
    + by rewrite (run_bind_ok _ _ _ _ _ IH).
    + by rewrite (run_bind_err _ _ _ _ _ IH).
  - by rewrite (run_bind_err _ _ _ _ _ Hx).
Qed.

Lemma gen_result_gen_for {A B} (f : A → result B) (l : list A) :
  gen_result (gen_for l (λ x, yield (f x))) = mapM f l.
Proof.
  induction l as [|x l IH]; [done|].
  change (gen_for (x :: l) (λ x, yield (f x)))
    with (gen_seq (yield (f x)) (gen_for l (λ x, yield (f x)))).
  rewrite result_mapM_cons, <- IH.
  destruct (f x) as [b|e]; [|done].
  unfold gen_result. simpl.
  by destruct (raised (gen_for l (λ x, yield (f x)))).
Qed.

(** [tuple(s.genes())] touches no object: it reads the set [keep] of the
    slice and the name mapping of the collection. *)
Lemma genes_run_spec (σ : heap) (so : SliceObj) (s : DataSlice) :
  slice_rep σ so s →
  genes_run so σ = (gen_result (DataSlice_genes s (heap_collection σ)), σ).
Proof.
  intros (_ & Hk & _ & _ & _ & Hids).
  unfold genes_run, DataSlice_genes. rewrite gen_result_gen_for, Hids.
  apply mapM_run_pure. apply Forall_Forall2_diag, Forall_forall.
  intros i _. unfold gene_row_run, gene_row.
  rewrite (run_bind_ok _ _ σ σ (default ""%string (h_gene_names σ !! i)))
    by reflexivity.
  pose proof (mapM_run_pure
    (λ f, ks ← set_iterate (so_keep so);
          of_result
            (mapM (λ d, g ← getitem (ds_genes d) i; mret (getattr g f))
                  (sorted_by ds_name ks)))
    (λ f, mapM (λ d, g ← getitem (ds_genes d) i; mret (getattr g f))
               (sorted_by ds_name (sl_keep s)))
    σ (drop 2 Gene_fields) (drop 2 Gene_fields)) as Hm.
  destruct (mapM (λ f, mapM (λ d, g ← getitem (ds_genes d) i;
                                  mret (getattr g f))
                            (sorted_by ds_name (sl_keep s)))
                 (drop 2 Gene_fields)) as [vals|e].
  - rewrite (run_bind_ok _ _ σ σ vals); [done|]. apply Hm.
    apply Forall_Forall2_diag, Forall_forall. intros f _.
    by rewrite (run_bind_ok _ _ _ _ _ (set_iterate_eq _ _ _ Hk)).
  - rewrite (run_bind_err _ _ σ σ e); [done|]. apply Hm.
    apply Forall_Forall2_diag, Forall_forall. intros f _.
    by rewrite (run_bind_ok _ _ _ _ _ (set_iterate_eq _ _ _ Hk)).
Qed.

Section consume.
Context `{SetOrder}.

Lemma consume_run_spec (σ : heap) :
  heap_ok σ →
  ∃ σ', consume_run σ = (consume_spec (heap_collection σ), σ') ∧
        heap_ext σ σ'.
Proof.
  intros Hok.
  destruct (slices_run_spec σ Hok) as (ss & σ' & Hrun & Hext & Hrep).
  destruct (heap_ext_ok _ _ Hok Hext) as [Hok' HC'].
  exists σ'. split; [|done].
  unfold consume_run. rewrite (run_bind_ok _ _ _ _ _ Hrun).
  apply mapM_run_pure. eapply Forall2_impl; [exact Hrep|].
  intros so s Hso. rewrite <- HC'. by apply genes_run_spec.
Qed.

(** C9: enumerating the slices of a collection and consuming the rows of
    each, twice in a row, makes new set objects and nothing else: after
    each run the collection has the set object it had, with the members it
    had, and the name mapping it had; and both runs give the same
    results, which are the rows of the slices of that collection. *)
Theorem slices_restartable (σ : heap) :
  heap_ok σ →
  ∃ r1 r2 σ1 σ2,
    consume_run σ = (r1, σ1) ∧
    consume_run σ1 = (r2, σ2) ∧
    h_datasets σ1 = h_datasets σ ∧ h_datasets σ2 = h_datasets σ ∧
    h_sets σ1 !! h_datasets σ = h_sets σ !! h_datasets σ ∧
    h_sets σ2 !! h_datasets σ = h_sets σ !! h_datasets σ ∧
    h_gene_names σ1 = h_gene_names σ ∧ h_gene_names σ2 = h_gene_names σ ∧
    r1 = r2 ∧
    r1 = mapM (λ s, gen_result (DataSlice_genes s (heap_collection σ)))
              (yielded (DatasetCollection_slices (heap_collection σ))).
Proof.
  intros Hok.
  destruct (consume_run_spec σ Hok) as (σ1 & Hrun1 & Hext1).
  destruct (heap_ext_ok _ _ Hok Hext1) as [Hok1 HC1].
  destruct (consume_run_spec σ1 Hok1) as (σ2 & Hrun2 & Hext2).
  pose proof (heap_ext_trans _ _ _ Hext1 Hext2) as Hext.
  destruct Hok as [Hlt _].
  destruct Hext1 as (Hd1 & Hg1 & _ & Hs1). destruct Hext as (Hd2 & Hg2 & _ & Hs2).
  eexists _, _, σ1, σ2.
  split; [exact Hrun1|]. split; [exact Hrun2|].
  split_and!; [done|done|by apply Hs1|by apply Hs2|done|done| |done].
  by rewrite HC1.
Qed.

(** Adding a dataset, by contrast, changes the set object of the
    collection. *)
Lemma add_run_changes (σ : heap) (d : Dataset) :
  heap_ok σ →
  ds_oid d ∉ oids (datasets (heap_collection σ)) →
  h_sets (add_run d σ).2 !! h_datasets σ ≠ h_sets σ !! h_datasets σ.
Proof.
  intros [_ [ds Hds]] Hd. unfold heap_collection in Hd. simpl in Hd.
  rewrite Hds in Hd. simpl in Hd.
  unfold add_run. rewrite (run_bind_ok _ _ σ σ (h_datasets σ)) by reflexivity.
  simpl. rewrite lookup_alter_eq, Hds. simpl. intros [= Heq].
  unfold set_add in Heq. rewrite decide_False in Heq by done.
  apply (f_equal length) in Heq.
  rewrite set_iter_perm, length_app in Heq. simpl in Heq. lia.
Qed.

End consume.

Lemma heap_AB_ok : heap_ok heap_AB.
Proof. split; [simpl; lia|]. by eexists. Qed.

(** [slices_restartable] on the objects of the collection of A and B. *)
Lemma slices_restartable_witness :
  ∃ σ1 σ2,
    @consume_run insertion_order heap_AB
    = (Ok [[["Delta-ABC-1"; ""; "A-Delta-fc"; "A-Delta-p"]];
           [["Alpha-ABC-1"; ""; "B-Alpha-fc"; "B-Alpha-p"]];
           [["Beta-DEF-2"; ""; "A-Beta-fc"; "B-Beta-fc"; "A-Beta-p";
             "B-Beta-p"]]]%string, σ1) ∧
    @consume_run insertion_order σ1
    = (Ok [[["Delta-ABC-1"; ""; "A-Delta-fc"; "A-Delta-p"]];
           [["Alpha-ABC-1"; ""; "B-Alpha-fc"; "B-Alpha-p"]];
           [["Beta-DEF-2"; ""; "A-Beta-fc"; "B-Beta-fc"; "A-Beta-p";
             "B-Beta-p"]]]%string, σ2) ∧
    h_next σ1 = 7 ∧ h_next σ2 = 13 ∧
    h_sets σ2 !! 0 = Some [dataset_A; dataset_B] ∧
    h_gene_names σ2 = ∅.
Proof.
  destruct (@slices_restartable insertion_order heap_AB heap_AB_ok)
    as (r1 & r2 & σ1 & σ2 & H1 & H2 & _ & _ & _ & Hs2 & _ & Hg2 & Hr & Hspec).
  exists σ1, σ2.
  assert (Hr1 : r1 = Ok [[["Delta-ABC-1"; ""; "A-Delta-fc"; "A-Delta-p"]];
           [["Alpha-ABC-1"; ""; "B-Alpha-fc"; "B-Alpha-p"]];
           [["Beta-DEF-2"; ""; "A-Beta-fc"; "B-Beta-fc"; "A-Beta-p";
             "B-Beta-p"]]]%string).
  { rewrite Hspec. vm_compute. reflexivity. }
  assert (Hσ1 : σ1 = (@consume_run insertion_order heap_AB).2) by by rewrite H1.
  assert (Hσ2 : σ2 = (@consume_run insertion_order σ1).2) by by rewrite H2.
  split_and!.
  - by rewrite H1, Hr1.
  - by rewrite H2, <- Hr, Hr1.
  - rewrite Hσ1. vm_compute. reflexivity.
  - rewrite Hσ2, Hσ1. vm_compute. reflexivity.
  - exact Hs2.
  - exact Hg2.
Defined.


(** The test of the repository: the rows of the three slices of A and B. *)
Example test_calc :
  (λ s, yielded (DataSlice_genes s collection_AB))
    <$> yielded (@DatasetCollection_slices insertion_order collection_AB)
  ≡ₚ [[["Alpha-ABC-1"; ""; "B-Alpha-fc"; "B-Alpha-p"]];
      [["Delta-ABC-1"; ""; "A-Delta-fc"; "A-Delta-p"]];
      [["Beta-DEF-2"; ""; "A-Beta-fc"; "B-Beta-fc"; "A-Beta-p"; "B-Beta-p"]]]%string.
Proof.
  assert ((λ s, yielded (DataSlice_genes s collection_AB))
            <$> yielded (@DatasetCollection_slices insertion_order collection_AB)
          = [[["Delta-ABC-1"; ""; "A-Delta-fc"; "A-Delta-p"]];
             [["Alpha-ABC-1"; ""; "B-Alpha-fc"; "B-Alpha-p"]];
             [["Beta-DEF-2"; ""; "A-Beta-fc"; "B-Beta-fc"; "A-Beta-p";
               "B-Beta-p"]]]%string) as ->
    by (vm_compute; reflexivity).
  apply Permutation_swap.
Qed.

Lemma collection_AB_NoDup : NoDup (oids (datasets collection_AB)).
Proof. apply (bool_decide_unpack _). vm_compute. exact I. Qed.

Lemma collection_AB_ids :
  Forall (λ d, ds_ids d = dom (ds_genes d)) (datasets collection_AB).
Proof. repeat constructor. Qed.

(** [slice_ids_partition] on the slice of A and B that keeps both. *)
Lemma slice_ids_partition_witness :
  ∃ s,
    yielded (@DatasetCollection_slices insertion_order collection_AB) !! 2
    = Some s ∧
    sl_ids s = ["Beta-DEF-2"]%string ∧
    StronglySorted str_lt (sl_ids s) ∧
    ∀ i, i ∈ sl_ids s ↔
      (∀ d, d ∈ sl_keep s → i ∈ ds_ids d) ∧
      (∀ d, d ∈ sl_exclude s → i ∉ ds_ids d).
Proof.
  eexists. split; [vm_compute; reflexivity|]. split; [reflexivity|].
  match goal with |- StronglySorted _ (sl_ids ?s) ∧ _ =>
    destruct (@slice_ids_partition insertion_order collection_AB s)
      as (_ & Hsorted & _ & Hmem)
  end.
  - apply (list_elem_of_lookup_2 _ 2). vm_compute. reflexivity.
  - by split.
Defined.

(** [slice_keep_exclude_partition] on the slice of A and B that keeps A
    alone. *)
Lemma slice_keep_exclude_partition_witness :
  ∃ s,
    yielded (@DatasetCollection_slices insertion_order collection_AB) !! 0
    = Some s ∧
    sl_keep s = [dataset_A] ∧
    sl_exclude s = [dataset_B] ∧
    (∀ d, d ∈ sl_keep s → d ∉ sl_exclude s) ∧
    sl_keep s ++ sl_exclude s ≡ₚ datasets collection_AB.
Proof.
  eexists. split; [vm_compute; reflexivity|].
  split; [vm_compute; reflexivity|]. split; [vm_compute; reflexivity|].
  match goal with |- (∀ d, d ∈ sl_keep ?s → _) ∧ _ =>
    destruct (@slice_keep_exclude_partition insertion_order collection_AB s
                collection_AB_NoDup)
      as (_ & Hdisj & _ & Hunion)
  end.
  - apply (list_elem_of_lookup_2 _ 0). vm_compute. reflexivity.
  - by split.
Defined.

(** [slices_enumerates_subsets] on the collection of A and B: three
    slices. *)
Lemma slices_enumerates_subsets_witness :
  NoDup (oids (datasets collection_AB)) ∧
  raised (@DatasetCollection_slices insertion_order collection_AB) = None ∧
  length (yielded (@DatasetCollection_slices insertion_order collection_AB)) = 3.
Proof.
  split; [exact collection_AB_NoDup|].
  destruct (@slices_enumerates_subsets insertion_order collection_AB
              collection_AB_NoDup) as (Hr & Hlen & _).
  split; [exact Hr|]. rewrite Hlen. reflexivity.
Defined.

(** [slice_fields_and_genes] on the slice of A and B that keeps both. *)
Lemma slice_fields_and_genes_witness :
  ∃ s,
    yielded (@DatasetCollection_slices insertion_order collection_AB) !! 2
    = Some s ∧
    DataSlice_fields s
    = ["id"; "iso"; "A foldcount"; "B foldcount"; "A p_value"; "B p_value"]%string ∧
    raised (DataSlice_genes s collection_AB) = None.
Proof.
  eexists. split; [vm_compute; reflexivity|].
  match goal with |- DataSlice_fields ?s = _ ∧ _ =>
    destruct (@slice_fields_and_genes insertion_order collection_AB s
                collection_AB_ids)
      as (ks & -> & _ & _ & Hfields & Hraised & _)
  end.
  - apply (list_elem_of_lookup_2 _ 2). vm_compute. reflexivity.
  - split; [rewrite Hfields; vm_compute; reflexivity|exact Hraised].
Defined.

(** ** The name of a slice *)

(** The name joins the names in the order the two sets are iterated. *)
Lemma slice_name_eq `{SetOrder} (self : DatasetCollection) (s : DataSlice) :
  s ∈ yielded (DatasetCollection_slices self) →
  sl_name s
  = ("(" ++ join " & " (ds_name <$> sl_keep s) ++ ") - ("
         ++ join " | " (ds_name <$> sl_exclude s) ++ ")")%string.
Proof. by intros (c & _ & _ & ->)%elem_of_slices. Qed.

(** C4: the name is not sorted.  In the collection of A and B whose set is
    iterated B first, the slice that keeps both is named [(B & A) - ()],
    where sorting by name gives [(A & B) - ()]; and the same subset is
    named differently under another iteration order of the sets. *)
Theorem slice_name_follows_set_order :
  ∃ s s',
    yielded (@DatasetCollection_slices insertion_order collection_BA) !! 2
    = Some s ∧
    yielded (@DatasetCollection_slices reverse_order collection_BA) !! 2
    = Some s' ∧
    sl_name s = "(B & A) - ()"%string ∧
    sorted_name s = "(A & B) - ()"%string ∧
    sl_name s ≠ sorted_name s ∧
    sl_keep s ≡ₚ sl_keep s' ∧
    sl_name s' = "(A & B) - ()"%string.
Proof.
  eexists _, _. split; [vm_compute; reflexivity|].
  split; [vm_compute; reflexivity|].
  split; [vm_compute; reflexivity|]. split; [vm_compute; reflexivity|].
  split; [by vm_compute|]. split; [|vm_compute; reflexivity].
  apply Permutation_swap.
Qed.

(** * Further properties *)

(** ** The record normalizer: the shape of a key *)

Lemma Forall_of_sublist {A} (P : A → Prop) (l1 l2 : list A) :
  l1 `sublist_of` l2 → Forall P l2 → Forall P l1.
Proof.
  intros Hs Hall. apply Forall_forall. intros x Hx.
  eapply Forall_forall; [exact Hall|]. by apply (sublist_subseteq _ _ Hs).
Qed.

(** What [sanitize_id] returns is the dash-join of at most three dash-free
    fields, taken in order from the fields of its argument. *)
Lemma sanitize_id_shape (ident : string) :
  ∃ l, l `sublist_of` split dash ident ∧ Forall dash_free l ∧
       (length l ≤ 3)%nat ∧
       sanitize_id ident = Ok (join "-" l).
Proof.
  pose proof (split_dash_free ident) as Hfree.
  destruct (split dash ident) as [|f fs] eqn:E.
  - by destruct (split_nonempty dash ident).
  - rewrite (sanitize_id_eq _ _ _ E).
    exists (take 3 (if decide (f = "tRNA"%string) then fs else f :: fs)).
    assert (Hsub : take 3 (if decide (f = "tRNA"%string) then fs else f :: fs)
                   `sublist_of` f :: fs).
    { etrans; [apply sublist_take|]. case_decide; [by apply sublist_cons|done]. }
    split_and!; [done| |rewrite length_take; lia|done].
    by apply (Forall_of_sublist _ _ _ Hsub).
Qed.

Lemma split_join_fields (l : list string) :
  Forall dash_free l →
  split dash (join "-" l) = match l with [] => [""%string] | _ => l end.
Proof. destruct l as [|f fs]; [done|]. apply split_join. Qed.


(** X2: normalizing a key again gives the key back, unless the key itself
    starts with a [tRNA] field. *)
Theorem sanitize_id_idempotent (ident key : string) :
  sanitize_id ident = Ok key →
  head (split dash key) ≠ Some "tRNA"%string →
  sanitize_id key = Ok key.
Proof.
  intros Hkey Hhead.
  destruct (sanitize_id_shape ident) as (l & _ & Hfree & Hlen & Heq).
  rewrite Hkey in Heq. injection Heq as ->.
  pose proof (split_join_fields l Hfree) as Hsplit.
  destruct l as [|g gs]; [done|].
  rewrite Hsplit in Hhead. rewrite (sanitize_id_eq _ g gs Hsplit).
  rewrite decide_False by (intros ->; by apply Hhead).
  rewrite take_ge by done. done.
Qed.

Lemma sanitize_id_idempotent_witness :
  sanitize_id "Ala-CGC-1" = Ok "Ala-CGC-1"%string.
Proof.
  apply (sanitize_id_idempotent "tRNA-Ala-CGC-1-2" "Ala-CGC-1").
  - reflexivity.
  - vm_compute. by intros [=].
Defined.

(** The condition is needed: a key made from an identifier with two
    leading [tRNA] fields loses one more field when normalized again. *)
Example sanitize_id_twice :
  sanitize_id "tRNA-tRNA-a-b-c" = Ok "tRNA-a-b"%string ∧
  sanitize_id "tRNA-a-b" = Ok "a-b"%string.
Proof. by split. Qed.

(** ** The record table loader: outcomes, counts and composition *)

Lemma first_empty_row (data : list (list string)) :
  [] ∈ data →
  ∃ pre post, data = pre ++ [] :: post ∧ Forall (λ l, l ≠ []) pre.
Proof.
  induction data as [|l data IH]; intros Hin.
  - by apply elem_of_nil in Hin.
  - destruct l as [|a l].
    + exists [], data. by split.
    + apply elem_of_cons in Hin as [?|Hin]; [done|].
      destruct (IH Hin) as (pre & post & -> & Hpre).
      exists ((a :: l) :: pre), post. split; [done|]. by constructor.
Qed.

Lemma no_empty_row (data : list (list string)) :
  [] ∉ data → Forall (λ l, l ≠ []) data.
Proof.
  intros Hnot. apply Forall_forall. intros l Hl ->. by apply Hnot.
Qed.

(** X3: the outcomes of a load.  It returns a table exactly when there is
    a header row and no data row is empty; with no row at all it raises
    [StopIteration]; with an empty data row it raises [IndexError]. *)
Theorem load_file_outcomes (rows : list (list string)) :
  match load_file rows with
  | Ok _ => rows ≠ [] ∧ [] ∉ drop 1 rows
  | Err e =>
      (e = StopIteration ∧ rows = []) ∨ (e = IndexError ∧ [] ∈ drop 1 rows)
  end.
Proof.
  destruct rows as [|hdr data]; [left; by split|].
  destruct (decide ([] ∈ data)) as [Hin|Hnot].
  - destruct (first_empty_row data Hin) as (pre & post & -> & Hpre).
    rewrite load_file_aborts_on_empty_row by done. right. by split.
  - rewrite load_file_nonempty_rows by by apply no_empty_row.
    by split.
Qed.

Lemma foldl_step_spec_size (st : gmap string Gene * nat)
    (rows : list (list string)) :
  (size (foldl step_spec st rows).1
   ≤ size st.1 + length (filter (λ l, 4 ≤ length l) rows))%nat.
Proof.
  revert st. induction rows as [|l rows IH]; intros st; simpl; [lia|].
  etrans; [apply IH|]. unfold step_spec. rewrite filter_cons.
  destruct (row_gene l) as [g|] eqn:E.
  - assert (4 ≤ length l)%nat.
    { destruct (decide (length l < 4)) as [Hlt|]; [|lia].
      apply row_gene_None in Hlt. congruence. }
    rewrite decide_True by done. simpl.
    pose proof (map_size_insert (g_id g) g st.1) as Hsz.
    destruct (st.1 !! g_id g); unfold id in Hsz; lia.
  - case_decide; simpl; lia.
Qed.

(** X4: when a load returns, the skip count is the number of data rows of
    fewer than four fields, and the table has at most one record per data
    row of four fields or more. *)
Theorem load_file_counts (rows : list (list string))
    (t : gmap string Gene) (n : nat) :
  load_file rows = Ok (t, n) →
  n = length (filter (λ l, length l < 4) (drop 1 rows)) ∧
  (size t ≤ length (filter (λ l, 4 ≤ length l) (drop 1 rows)))%nat ∧
  (size t + n ≤ length (drop 1 rows))%nat.
Proof.
  intros Hload. destruct rows as [|hdr data]; [done|]. simpl in Hload.
  apply load_rows_inv in Hload as [_ Hst]. simpl.
  pose proof (foldl_step_spec_skipped (∅, 0) data) as Hn.
  pose proof (foldl_step_spec_size (∅, 0) data) as Ht.
  rewrite <- Hst in Hn, Ht. simpl in Hn, Ht. rewrite map_size_empty in Ht.
  split_and!; [done..|].
  pose proof (filter_app_complement (λ l : list string, length l < 4) data)
    as Hp.
  apply Permutation_length in Hp. rewrite length_app in Hp.
  rewrite (list_filter_iff (λ l : list string, ¬ length l < 4)
             (λ l, (4 ≤ length l)%nat)) in Hp by (intros; lia).
  change (drop 0 data) with data. lia.
Qed.

Lemma load_file_counts_witness :
  ∃ t, load_file [["id"; "iso"; "foldcount"; "p_value"];
                  ["tRNA-Ala-CGC-1-2"; "x"; "1.5"; "0.01"];
                  ["tRNA-Leu-AAG-1-1"; "z"; "0.7"];
                  ["Ala-CGC-1-9"; "y"; "2.0"; "0.5"]]%string
       = Ok (t, 1) ∧ (size t ≤ 2)%nat.
Proof.
  eexists. split; [vm_compute; reflexivity|].
  refine (proj1 (proj2 (load_file_counts
    [["id"; "iso"; "foldcount"; "p_value"];
     ["tRNA-Ala-CGC-1-2"; "x"; "1.5"; "0.01"];
     ["tRNA-Leu-AAG-1-1"; "z"; "0.7"];
     ["Ala-CGC-1-9"; "y"; "2.0"; "0.5"]]%string _ 1 _))).
  vm_compute; reflexivity.
Defined.

Lemma load_row_take (genes : gmap string Gene) (l : list string) :
  load_row genes (take 4 l) = load_row genes l.
Proof.
  unfold load_row. change (length Gene_fields) with 4.
  by rewrite take_take, Nat.min_id.
Qed.

Lemma load_step_take (st : gmap string Gene * nat) (l : list string) :
  load_step st (take 4 l) = load_step st l.
Proof. unfold load_step. by rewrite load_row_take. Qed.

(** X5: fields after the fourth are ignored: a file loads as the file
    with every data row cut to four fields does, errors included. *)
Theorem load_file_ignores_extra_fields (hdr : list string)
    (data : list (list string)) :
  load_file (hdr :: (take 4 <$> data)) = load_file (hdr :: data).
Proof.
  simpl. generalize (∅ : gmap string Gene, 0) as st.
  induction data as [|l data IH]; intros st; [done|].
  rewrite fmap_cons. cbn [load_rows]. rewrite load_step_take.
  destruct (load_step st l) as [st'|e]; simpl; auto.
Qed.

Lemma foldl_step_spec_dom (st : gmap string Gene * nat)
    (rows : list (list string)) (k : string) :
  is_Some ((foldl step_spec st rows).1 !! k) ↔
  is_Some (st.1 !! k) ∨ ∃ l g, l ∈ rows ∧ row_gene l = Some g ∧ g_id g = k.
Proof.
  split.
  - intros [g Hg]. apply foldl_step_spec_lookup in Hg as [Hg|(Hid & l & Hl & Hg)].
    + left. by exists g.
    + right. by exists l, g.
  - revert st. induction rows as [|l rows IH]; intros st.
    + intros [?|(l & g & Hl & _)]; [done|]. by apply elem_of_nil in Hl.
    + intros Hk. simpl. apply IH.
      destruct Hk as [Hk|(l' & g & Hl' & Hg & Hid)].
      * left. unfold step_spec. destruct (row_gene l) as [g'|]; [|done].
        simpl. rewrite lookup_insert. case_decide; [by eexists|done].
      * apply elem_of_cons in Hl' as [->|Hl'].
        -- left. unfold step_spec. rewrite Hg. simpl. rewrite <- Hid.
           rewrite lookup_insert_eq. by eexists.
        -- right. by exists l', g.
Qed.

(** X6: when a load returns, the keys of the table are exactly the
    normalized first fields of the data rows of four fields or more: no
    such row is lost, and nothing else gets in. *)
Theorem load_file_table_domain (rows : list (list string))
    (t : gmap string Gene) (n : nat) (k : string) :
  load_file rows = Ok (t, n) →
  k ∈ dom t ↔
  ∃ a b c d rest,
    (a :: b :: c :: d :: rest) ∈ drop 1 rows ∧ sanitize_id a = Ok k.
Proof.
  intros Hload. destruct rows as [|hdr data]; [done|]. simpl in Hload.
  apply load_rows_inv in Hload as [_ Hst]. simpl.
  rewrite elem_of_dom. change t with (t, n).1. rewrite Hst.
  rewrite foldl_step_spec_dom. simpl. split.
  - intros [[? Hk]|(l & g & Hl & Hg & <-)].
    + by rewrite lookup_empty in Hk.
    + apply row_gene_Some in Hg as (a & b & c & d & rest & -> & Ha & _).
      by exists a, b, c, d, rest.
  - intros (a & b & c & d & rest & Hl & Ha). right.
    exists (a :: b :: c :: d :: rest), (mkGene k b c d).
    split; [done|]. split; [|done]. simpl. by rewrite Ha.
Qed.

Lemma load_file_table_domain_witness :
  ∃ t n, load_file rows_A = Ok (t, n) ∧ "Beta-DEF-2"%string ∈ dom t.
Proof.
  eexists _, _. split; [vm_compute; reflexivity|].
  refine (proj2 (load_file_table_domain rows_A _ _ "Beta-DEF-2" _) _).
  - vm_compute; reflexivity.
  - exists "tRNA-Beta-DEF-2-x"%string, ""%string, "A-Beta-fc"%string,
      "A-Beta-p"%string, []. split; [|reflexivity].
    apply (list_elem_of_lookup_2 _ 1). reflexivity.
Defined.

Lemma foldl_step_spec_union (t : gmap string Gene) (n : nat)
    (rows : list (list string)) :
  foldl step_spec (t, n) rows
  = ((foldl step_spec (∅, 0) rows).1 ∪ t, n + (foldl step_spec (∅, 0) rows).2).
Proof.
  induction rows as [|l rows IH] using rev_ind.
  - simpl. rewrite (left_id_L ∅ (∪)). f_equal. lia.
  - rewrite !foldl_app. cbn [foldl]. rewrite IH.
    destruct (foldl step_spec (∅, 0) rows) as [m k].
    unfold step_spec. destruct (row_gene l) as [g|]; simpl.
    + by rewrite insert_union_l.
    + f_equal. lia.
Qed.

(** X7: loading composes.  When the two halves of a file load on their
    own, the whole file loads to the union of the two tables, in which an
    id of the second half takes its record from the second half, and the
    skip counts add up. *)
Theorem load_file_app (hdr : list string) (d1 d2 : list (list string))
    (t1 t2 : gmap string Gene) (n1 n2 : nat) :
  load_file (hdr :: d1) = Ok (t1, n1) →
  load_file (hdr :: d2) = Ok (t2, n2) →
  load_file (hdr :: d1 ++ d2) = Ok (t2 ∪ t1, n1 + n2).
Proof.
  simpl. intros [H1 E1]%load_rows_inv [H2 E2]%load_rows_inv.
  rewrite load_rows_ok by by apply Forall_app.
  rewrite foldl_app, <- E1, foldl_step_spec_union, <- E2. done.
Qed.

Lemma load_file_app_witness :
  ∃ t1 t2,
    load_file (["id"; "iso"; "foldcount"; "p_value"]%string
               :: drop 1 rows_A ++ drop 1 rows_B)
    = Ok (t2 ∪ t1, 0) ∧
    (t2 ∪ t1) !! "Beta-DEF-2"%string
    = Some (mkGene "Beta-DEF-2" "" "B-Beta-fc" "B-Beta-p").
Proof.
  eexists _, _. split.
  - apply (load_file_app _ (drop 1 rows_A) (drop 1 rows_B) _ _ 0 0);
      vm_compute; reflexivity.
  - vm_compute. reflexivity.
Defined.

(** ** Slices: what does not depend on the order of the sets *)

Lemma ids_of_perm (keep keep' exclude exclude' : list Dataset) :
  keep ≡ₚ keep' → exclude ≡ₚ exclude' →
  ids_of keep exclude = ids_of keep' exclude'.
Proof.
  intros Hk He.
  destruct keep as [|d0 keep].
  { apply Permutation_nil_l in Hk as <-. unfold ids_of. simpl.
    do 2 f_equal. apply set_eq. intros i.
    rewrite !elem_of_difference_all. split; intros [H0 Hex]; (split; [done|]);
      intros o (d & -> & Hd)%list_elem_of_fmap; apply Hex, list_elem_of_fmap_2.
    - by rewrite He.
    - by rewrite <- He. }
  assert (Hne' : keep' ≠ []).
  { intros ->. by apply Permutation_nil_r in Hk. }
  assert (Hmem : ∀ i, i ∈ ids_of (d0 :: keep) exclude
                      ↔ i ∈ ids_of keep' exclude').
  { intros i. rewrite !elem_of_ids_of by done.
    split; intros [Hin Hout]; split; intros d Hd.
    - apply Hin. by rewrite Hk.
    - apply Hout. by rewrite He.
    - apply Hin. by rewrite <- Hk.
    - apply Hout. by rewrite <- He. }
  unfold ids_of in *. do 2 f_equal. apply set_eq. intros i.
  specialize (Hmem i). by rewrite !sorted_perm, !elem_of_elements in Hmem.
Qed.

(** X8: the ids of a slice do not depend on the order in which the sets
    [keep] and [exclude] are iterated (unlike its name). *)
Theorem calc_ids_order_independent
    (keep keep' exclude exclude' : list Dataset) :
  keep ≡ₚ keep' → exclude ≡ₚ exclude' →
  _calc_ids keep exclude = _calc_ids keep' exclude'.
Proof.
  intros Hk He. destruct keep as [|d0 keep].
  - apply Permutation_nil_l in Hk as <-. by rewrite !calc_ids_empty.
  - assert (keep' ≠ []) by (intros ->; by apply Permutation_nil_r in Hk).
    rewrite !calc_ids_ok by done. f_equal. by apply ids_of_perm.
Qed.

Lemma calc_ids_order_independent_witness :
  _calc_ids [dataset_A; dataset_B] [] = _calc_ids [dataset_B; dataset_A] [].
Proof.
  apply calc_ids_order_independent; [apply Permutation_swap|done].
Defined.

Lemma fmap_insert_by {A} (key : A → string) (x : A) (l : list A) :
  key <$> insert_by key x l = insert_by (λ s, s) (key x) (key <$> l).
Proof.
  induction l as [|y l IH]; [done|].
  rewrite fmap_cons. cbn [insert_by].
  case_decide; [done|]. by rewrite fmap_cons, IH.
Qed.

Lemma fmap_sorted_by {A} (key : A → string) (l : list A) :
  key <$> sorted_by key l = sorted (key <$> l).
Proof.
  unfold sorted, sorted_by. induction l as [|x l IH]; [done|].
  rewrite fmap_cons. cbn [foldr]. by rewrite fmap_insert_by, IH.
Qed.

(** Sorting forgets the order of its argument. *)
Lemma sorted_of_perm (l l' : list string) : l ≡ₚ l' → sorted l = sorted l'.
Proof.
  intros Hp.
  apply (StronglySorted_unique_strong (key_le (λ s : string, s))).
  - intros a b _ _ Hab Hba. by apply (anti_symm String.le).
  - apply sorted_by_sorted.
  - apply sorted_by_sorted.
  - by rewrite !sorted_perm.
Qed.

Lemma DataSlice_fields_names (s : DataSlice) :
  DataSlice_fields s
  = ["id"; "iso"]%string
    ++ ((λ n, n ++ " foldcount")%string <$> sorted (ds_name <$> sl_keep s))
    ++ ((λ n, n ++ " p_value")%string <$> sorted (ds_name <$> sl_keep s)).
Proof.
  unfold DataSlice_fields. simpl. rewrite app_nil_r.
  by rewrite <- fmap_sorted_by, <- !list_fmap_compose.
Qed.

(** X9: the header depends only on the names of the datasets kept, not on
    the order in which the set is iterated: two slices whose kept
    datasets have the same names have the same header. *)
Theorem fields_depend_on_names (s s' : DataSlice) :
  ds_name <$> sl_keep s ≡ₚ ds_name <$> sl_keep s' →
  DataSlice_fields s = DataSlice_fields s'.
Proof.
  intros Hp. by rewrite !DataSlice_fields_names, (sorted_of_perm _ _ Hp).
Qed.

Lemma fields_depend_on_names_witness :
  DataSlice_fields (mkDataSlice [dataset_A; dataset_B] [] "" [])
  = DataSlice_fields (mkDataSlice [dataset_B; dataset_A] [] "" []).
Proof. apply fields_depend_on_names. apply Permutation_swap. Defined.

Lemma DataSlice_fields_length (s : DataSlice) :
  length (DataSlice_fields s) = 2 + 2 * length (sl_keep s).
Proof.
  rewrite DataSlice_fields_names. simpl.
  rewrite length_app, !length_fmap.
  pose proof (Permutation_length (sorted_perm (ds_name <$> sl_keep s))) as Hl.
  rewrite length_fmap in Hl. lia.
Qed.

(** ** Rows and header *)

Section rows.
Context `{SetOrder}.

(** In a slice that [slices] builds, every id is in the table of every
    dataset kept. *)
Lemma slice_of_lookups (ds c : list Dataset) (i : string) :
  Forall (λ d, ds_ids d = dom (ds_genes d)) ds →
  c `sublist_of` ds → c ≠ [] →
  i ∈ sl_ids (slice_of ds c) →
  ∃ gs, Forall2 (λ d g, ds_genes d !! i = Some g)
                (sorted_by ds_name (sl_keep (slice_of ds c))) gs.
Proof.
  intros Hwf Hs Hne Hi. apply lookups_exist. intros d Hd.
  rewrite sorted_by_perm in Hd. apply elem_of_dom.
  apply (slice_of_ids_members ds c Hne) in Hi as [Hk _].
  rewrite <- (proj1 (Forall_forall _ _) Hwf d).
  - by apply Hk.
  - by apply (sublist_subseteq _ _ Hs), set_of_subseteq.
Qed.

(** X10: for a slice that [slices] yields, every row of [genes()] has as
    many fields as the header, two and two per dataset kept, and starts
    with its id. *)
Theorem genes_rows_match_header (self : DatasetCollection) (s : DataSlice) :
  Forall (λ d, ds_ids d = dom (ds_genes d)) (datasets self) →
  s ∈ yielded (DatasetCollection_slices self) →
  length (DataSlice_fields s) = 2 + 2 * length (sl_keep s) ∧
  Forall2 (λ i row, length row = length (DataSlice_fields s) ∧
                    head row = Some i)
          (sl_ids s) (yielded (DataSlice_genes s self)).
Proof.
  intros Hwf (c & Hs & Hne & ->)%elem_of_slices.
  split; [apply DataSlice_fields_length|].
  apply gen_for_yield_Forall2. intros i Hi.
  destruct (slice_of_lookups _ _ _ Hwf Hs Hne Hi) as [gs Hgs].
  rewrite (gene_row_ok _ _ _ _ Hgs). eexists. split; [done|].
  split; [|done]. rewrite DataSlice_fields_length.
  apply Forall2_length in Hgs.
  rewrite (Permutation_length (sorted_by_perm ds_name _)) in Hgs.
  simpl. rewrite length_app, !length_fmap. simpl in Hgs. lia.
Qed.

End rows.

Lemma genes_rows_match_header_witness :
  ∃ s,
    yielded (@DatasetCollection_slices insertion_order collection_AB) !! 2
    = Some s ∧
    length (DataSlice_fields s) = 6 ∧
    Forall2 (λ i row, length row = length (DataSlice_fields s) ∧
                      head row = Some i)
            (sl_ids s) (yielded (DataSlice_genes s collection_AB)).
Proof.
  eexists. split; [vm_compute; reflexivity|].
  match goal with |- length (DataSlice_fields ?s) = _ ∧ _ =>
    destruct (@genes_rows_match_header insertion_order collection_AB s
                collection_AB_ids) as [Hlen Hrows]
  end.
  - apply (list_elem_of_lookup_2 _ 2). vm_compute. reflexivity.
  - split; [rewrite Hlen; reflexivity|exact Hrows].
Defined.

(** ** Rows of a slice whose datasets miss an id *)

Lemma mapM_getitem_missing (l : list Dataset) (i : string) (f : field) :
  (∃ d, d ∈ l ∧ ds_genes d !! i = None) →
  mapM (λ d, g ← getitem (ds_genes d) i; mret (getattr g f)) l = Err KeyError.
Proof.
  induction l as [|d l IH]; intros (d' & Hd' & Hnone).
  - by apply elem_of_nil in Hd'.
  - change (mapM ?h (d :: l)) with (y ← h d; k ← mapM h l; mret (y :: k)).
    destruct (ds_genes d !! i) as [g|] eqn:E.
    + assert (getitem (ds_genes d) i = Ok g) as ->
        by (unfold getitem; by rewrite E).
      apply elem_of_cons in Hd' as [->|Hd']; [congruence|].
      simpl. rewrite IH by eauto. done.
    + assert (getitem (ds_genes d) i = Err KeyError) as ->
        by (unfold getitem; by rewrite E).
      reflexivity.
Qed.

Lemma gene_row_missing (self : DataSlice) (collection : DatasetCollection)
    (i : string) :
  (∃ d, d ∈ sl_keep self ∧ ds_genes d !! i = None) →
  gene_row self collection i = Err KeyError.
Proof.
  intros (d & Hd & Hnone). unfold gene_row.
  change (drop 2 Gene_fields) with [F_foldcount; F_p_value].
  change (mapM ?h [F_foldcount; F_p_value])
    with (y ← h F_foldcount; k ← mapM h [F_p_value]; mret (y :: k)).
  cbv beta. rewrite mapM_getitem_missing; [done|].
  exists d. by rewrite sorted_by_perm.
Qed.

Lemma gen_for_raise {A B} (pre post : list A) (x : A) (f : A → result B)
    (e : exn) (P : A → B → Prop) :
  (∀ y, y ∈ pre → ∃ b, f y = Ok b ∧ P y b) → f x = Err e →
  raised (gen_for (pre ++ x :: post) (λ x, yield (f x))) = Some e ∧
  Forall2 P pre (yielded (gen_for (pre ++ x :: post) (λ x, yield (f x)))).
Proof.
  intros Hpre Hx. induction pre as [|y pre IH].
  - change (gen_for ([] ++ x :: post) (λ x, yield (f x)))
      with (gen_seq (yield (f x)) (gen_for post (λ x, yield (f x)))).
    rewrite Hx. split; [done|constructor].
  - destruct (Hpre y) as (b & Hb & HP); [by left|].
    destruct IH as [IHr IHy]; [intros y' Hy'; apply Hpre; by right|].
    change (gen_for ((y :: pre) ++ x :: post) (λ x, yield (f x)))
      with (gen_seq (yield (f y))
              (gen_for (pre ++ x :: post) (λ x, yield (f x)))).
    rewrite Hb. simpl. split; [done|]. by constructor.
Qed.

(** X11: when a dataset kept has no record for an id of the slice (its
    table is not the one its ids were taken from), [genes()] yields the
    rows of the ids before it, one per id and in order, each the id, its
    display name, then the [foldcount] and the [p_value] of the id in the
    datasets kept sorted by name, and then raises [KeyError]. *)
Theorem genes_missing_key_raises (s : DataSlice) (collection : DatasetCollection)
    (pre post : list string) (i : string) :
  sl_ids s = pre ++ i :: post →
  (∀ j d, j ∈ pre → d ∈ sl_keep s → is_Some (ds_genes d !! j)) →
  (∃ d, d ∈ sl_keep s ∧ ds_genes d !! i = None) →
  raised (DataSlice_genes s collection) = Some KeyError ∧
  Forall2
    (λ j row, ∃ gs,
       Forall2 (λ d g, ds_genes d !! j = Some g)
               (sorted_by ds_name (sl_keep s)) gs ∧
       row = [j; default ""%string (gene_names collection !! j)]
             ++ (g_foldcount <$> gs) ++ (g_p_value <$> gs))
    pre (yielded (DataSlice_genes s collection)).
Proof.
  intros Hids Hpre Hmiss. unfold DataSlice_genes. rewrite Hids.
  apply gen_for_raise; [|by apply gene_row_missing].
  intros j Hj.
  destruct (lookups_exist (sorted_by ds_name (sl_keep s)) j) as [gs Hgs].
  - intros d Hd. rewrite sorted_by_perm in Hd. by apply Hpre.
  - rewrite (gene_row_ok _ _ _ _ Hgs). eauto.
Qed.

Lemma genes_missing_key_raises_witness :
  raised (DataSlice_genes
            (mkDataSlice [dataset_A] [] "" ["Beta-DEF-2"; "Alpha-ABC-1"]%string)
            collection_AB) = Some KeyError ∧
  yielded (DataSlice_genes
            (mkDataSlice [dataset_A] [] "" ["Beta-DEF-2"; "Alpha-ABC-1"]%string)
            collection_AB)
  = [["Beta-DEF-2"; ""; "A-Beta-fc"; "A-Beta-p"]%string].
Proof.
  split; [|vm_compute; reflexivity].
  refine (proj1 (genes_missing_key_raises
    (mkDataSlice [dataset_A] [] "" ["Beta-DEF-2"; "Alpha-ABC-1"]%string)
    collection_AB ["Beta-DEF-2"%string] [] "Alpha-ABC-1" _ _ _)).
  - reflexivity.
  - intros j d ->%list_elem_of_singleton ->%list_elem_of_singleton.
    vm_compute. eauto.
  - exists dataset_A. split; [by left|]. vm_compute. reflexivity.
Defined.

(** ** The slices cover the ids exactly *)

Section cover.
Context `{SetOrder}.

(** The combination of a slice is told by any one of its ids: it holds
    the datasets that have the id. *)
Lemma slice_of_ids_keep (ds c : list Dataset) (i : string) :
  NoDup (oids ds) → c `sublist_of` ds → c ≠ [] →
  i ∈ sl_ids (slice_of ds c) →
  ∀ d, d ∈ c ↔ d ∈ ds ∧ i ∈ ds_ids d.
Proof.
  intros Hnd Hs Hne Hi d.
  apply (slice_of_ids_members ds c Hne) in Hi as [Hin Hout]. split.
  - intros Hd. split; [by apply (sublist_subseteq _ _ Hs)|].
    apply Hin. by apply slice_of_keep_members.
  - intros [Hd Hid].
    destruct (decide (ds_oid d ∈ oids c)) as [Ho|Ho].
    + apply list_elem_of_fmap in Ho as (d' & Heq & Hd').
      by rewrite (oid_inj ds d d' Hnd Hd (sublist_subseteq _ _ Hs _ Hd') Heq).
    + destruct (Hout d); [|done].
      apply slice_of_exclude_members; [done..|]. split; [done|].
      intros Hc. by apply Ho, elem_of_oids.
Qed.

Lemma slices_ids_cover (self : DatasetCollection) :
  NoDup (oids (datasets self)) →
  yielded (DatasetCollection_slices self) ≫= sl_ids
  ≡ₚ elements (⋃ (ds_ids <$> datasets self)).
Proof.
  intros Hnd. rewrite (proj2 (slices_eq self)).
  set (ds := datasets self) in *.
  assert (Hsame : ∀ c1 c2 i,
    c1 ∈ all_combinations ds → c2 ∈ all_combinations ds →
    i ∈ sl_ids (slice_of ds c1) → i ∈ sl_ids (slice_of ds c2) → c1 = c2).
  { intros c1 c2 i [Hs1 Hne1]%elem_of_all_combinations
      [Hs2 Hne2]%elem_of_all_combinations Hi1 Hi2.
    apply (sublist_same_members ds); [by apply NoDup_of_oids|done..|].
    intros d. by rewrite (slice_of_ids_keep ds c1 i), (slice_of_ids_keep ds c2 i). }
  apply NoDup_Permutation.
  - rewrite list_fmap_bind. apply NoDup_bind.
    + intros c1 c2 i. apply Hsame.
    + intros c _. simpl. unfold ids_of. rewrite sorted_perm.
      apply NoDup_elements.
    + by apply NoDup_all_combinations, NoDup_of_oids.
  - apply NoDup_elements.
  - intros i. rewrite list_elem_of_bind, elem_of_elements, elem_of_union_list.
    split.
    + intros (s & Hi & (c & -> & [Hs Hne]%elem_of_all_combinations)%list_elem_of_fmap).
      destruct c as [|d0 c]; [done|].
      exists (ds_ids d0). split.
      * apply list_elem_of_fmap_2, (sublist_subseteq _ _ Hs). by left.
      * apply (slice_of_ids_keep ds (d0 :: c) i Hnd Hs Hne Hi). by left.
    + intros (X & (d0 & -> & Hd0)%list_elem_of_fmap & Hi).
      set (c := filter (λ d, i ∈ ds_ids d) ds).
      assert (Hs : c `sublist_of` ds) by apply sublist_filter.
      assert (Hc0 : d0 ∈ c) by by apply list_elem_of_filter.
      assert (Hne : c ≠ []) by (intros Hnil; rewrite Hnil in Hc0;
                                by apply elem_of_nil in Hc0).
      exists (slice_of ds c). split.
      * apply (slice_of_ids_members ds c Hne). split.
        -- intros d Hd%slice_of_keep_members; [|done..].
           by apply list_elem_of_filter in Hd as [? _].
        -- intros d [Hd Hn]%slice_of_exclude_members Hid; [|done..].
           apply Hn. by apply list_elem_of_filter.
      * apply list_elem_of_fmap_2. by apply elem_of_all_combinations.
Qed.

(** X12: the slices partition the ids.  Put end to end, the ids of the
    slices that [slices] yields are the ids found in the datasets of the
    collection, each once: every id of a dataset is in exactly one
    slice, and no slice has any other id. *)
Theorem slices_partition_ids (self : DatasetCollection) :
  NoDup (oids (datasets self)) →
  yielded (DatasetCollection_slices self) ≫= sl_ids
  ≡ₚ elements (⋃ (ds_ids <$> datasets self)).
Proof. apply slices_ids_cover. Qed.

End cover.

Lemma slices_partition_ids_witness :
  yielded (@DatasetCollection_slices insertion_order collection_AB) ≫= sl_ids
  ≡ₚ elements (⋃ (ds_ids <$> datasets collection_AB)).
Proof.
  apply (@slices_partition_ids insertion_order collection_AB).
  exact collection_AB_NoDup.
Defined.

(** ** Adding datasets *)

Section adding.
Context `{SetOrder}.

(** X13: [add] leaves the name mapping alone, makes the identity of the
    dataset a member and changes no other membership, grows [len] by
    one for a dataset that is not in the collection and by nothing for
    one that is, and adding the same dataset again changes nothing. *)
Theorem add_membership_and_len (self : DatasetCollection) (d : Dataset) :
  gene_names (DatasetCollection_add self d) = gene_names self ∧
  (∀ o, o ∈ oids (DatasetCollection_iter (DatasetCollection_add self d))
        ↔ o ∈ oids (DatasetCollection_iter self) ∨ o = ds_oid d) ∧
  DatasetCollection_len (DatasetCollection_add self d)
  = (if decide (ds_oid d ∈ oids (DatasetCollection_iter self))
     then DatasetCollection_len self
     else S (DatasetCollection_len self)) ∧
  DatasetCollection_add (DatasetCollection_add self d) d
  = DatasetCollection_add self d.
Proof.
  unfold DatasetCollection_len, DatasetCollection_iter, DatasetCollection_add.
  simpl. unfold set_add.
  destruct (decide (ds_oid d ∈ oids (datasets self))) as [Hd|Hd].
  - split_and!; [done| |done|].
    + intros o. split; [auto|]. by intros [?| ->].
    + by rewrite decide_True.
  - assert (Hin : ds_oid d ∈ oids (set_iter (datasets self ++ [d]))).
    { unfold oids. rewrite set_iter_perm, fmap_app, elem_of_app.
      right. by left. }
    split_and!; [done| | |].
    + intros o. unfold oids. rewrite set_iter_perm, fmap_app, elem_of_app.
      simpl. by rewrite list_elem_of_singleton.
    + rewrite set_iter_perm, length_app. simpl. lia.
    + by rewrite decide_True.
Qed.

(** X14: a dataset that is new to the collection doubles the number of
    slices and adds one. *)
Theorem slices_count_after_add (self : DatasetCollection) (d : Dataset) :
  ds_oid d ∉ oids (datasets self) →
  length (yielded (DatasetCollection_slices (DatasetCollection_add self d)))
  = 2 * length (yielded (DatasetCollection_slices self)) + 1.
Proof.
  intros Hd.
  assert (Hlen : length (datasets (DatasetCollection_add self d))
                 = S (length (datasets self))).
  { simpl. unfold set_add. rewrite decide_False by done.
    rewrite set_iter_perm, length_app. simpl. lia. }
  rewrite !(proj2 (slices_eq _)), !length_fmap, !length_all_combinations.
  rewrite Hlen, Nat.pow_succ_r'.
  assert (0 < 2 ^ length (datasets self)).
  { apply Nat.neq_0_lt_0, Nat.pow_nonzero. lia. }
  lia.
Qed.

End adding.

Lemma slices_count_after_add_witness :
  length (yielded (@DatasetCollection_slices insertion_order collection_AB))
  = 2 * length (yielded (@DatasetCollection_slices insertion_order
             (@DatasetCollection_add insertion_order DatasetCollection_init
                dataset_A))) + 1.
Proof.
  apply (@slices_count_after_add insertion_order
           (@DatasetCollection_add insertion_order DatasetCollection_init
              dataset_A) dataset_B).
  apply (bool_decide_unpack _). vm_compute. exact I.
Defined.

(** ** The writer *)

Lemma write_rows_eq (out : list string) (g : gen (list string)) :
  write_rows out g = (out ++ (row_line <$> yielded g), raised g).
Proof.
  revert out. induction g as [|row rest IH|e]; intros out; simpl.
  - by rewrite app_nil_r.
  - rewrite IH. unfold write. by rewrite <- app_assoc.
  - by rewrite app_nil_r.
Qed.

Lemma write_slice_eq (out : list string) (s : DataSlice)
    (collection : DatasetCollection) :
  write_slice out s collection
  = (out
     ++ [(sl_name s ++ ",Count," ++ pretty (length (sl_ids s)) ++ newline)%string;
         (join "," (DataSlice_fields s) ++ newline)%string]
     ++ (row_line <$> yielded (DataSlice_genes s collection))
     ++ match raised (DataSlice_genes s collection) with
        | Some _ => []
        | None => [newline]
        end,
     raised (DataSlice_genes s collection)).
Proof.
  unfold write_slice. rewrite write_rows_eq. unfold write.
  destruct (raised (DataSlice_genes s collection)); simpl;
    by rewrite <- ?app_assoc, ?app_nil_r.
Qed.

(** X15: [write_slice] only adds to the file, and when [genes()] raises,
    the exception escapes after the summary line, the header and the
    rows yielded so far have been written, without the closing blank
    line. *)
Theorem write_slice_partial_on_error (out : list string) (s : DataSlice)
    (collection : DatasetCollection) (e : exn) :
  raised (DataSlice_genes s collection) = Some e →
  write_slice out s collection
  = (out
     ++ [(sl_name s ++ ",Count," ++ pretty (length (sl_ids s)) ++ newline)%string;
         (join "," (DataSlice_fields s) ++ newline)%string]
     ++ (row_line <$> yielded (DataSlice_genes s collection)),
     Some e).
Proof.
  intros He. rewrite write_slice_eq, He. by rewrite app_nil_r.
Qed.

Lemma write_slice_partial_on_error_witness :
  write_slice []
    (mkDataSlice [dataset_A] [] "x" ["Beta-DEF-2"; "Alpha-ABC-1"]%string)
    collection_AB
  = (["x,Count,2" ++ newline; "id,iso,A foldcount,A p_value" ++ newline;
      "Beta-DEF-2,,A-Beta-fc,A-Beta-p" ++ newline]%string,
     Some KeyError).
Proof.
  rewrite (write_slice_partial_on_error _ _ _ KeyError);
    vm_compute; reflexivity.
Defined.

Section writer.
Context `{SetOrder}.

Lemma slice_genes_complete (self : DatasetCollection) (s : DataSlice) :
  Forall (λ d, ds_ids d = dom (ds_genes d)) (datasets self) →
  s ∈ yielded (DatasetCollection_slices self) →
  raised (DataSlice_genes s self) = None ∧
  length (yielded (DataSlice_genes s self)) = length (sl_ids s).
Proof.
  intros Hwf (c & Hs & Hne & ->)%elem_of_slices.
  destruct (gen_for_yield_Forall2 (sl_ids (slice_of (datasets self) c))
              (gene_row (slice_of (datasets self) c) self) (λ _ _, True))
    as [Hr Hy].
  - intros i Hi.
    destruct (slice_of_lookups _ _ _ Hwf Hs Hne Hi) as [gs Hgs].
    rewrite (gene_row_ok _ _ _ _ Hgs). eauto.
  - split; [exact Hr|]. symmetry. by eapply Forall2_length.
Qed.

(** X16: for a slice that [slices] yields, [write_slice] raises nothing
    and adds to the file the summary line, the header, one line per id
    and a blank line; the count in the summary line is the number of row
    lines written. *)
Theorem write_slice_block (out : list string) (self : DatasetCollection)
    (s : DataSlice) :
  Forall (λ d, ds_ids d = dom (ds_genes d)) (datasets self) →
  s ∈ yielded (DatasetCollection_slices self) →
  ∃ rows,
    write_slice out s self
    = (out
       ++ [(sl_name s ++ ",Count," ++ pretty (length rows) ++ newline)%string;
           (join "," (DataSlice_fields s) ++ newline)%string]
       ++ rows ++ [newline],
       None) ∧
    length rows = length (sl_ids s).
Proof.
  intros Hwf Hin. destruct (slice_genes_complete self s Hwf Hin) as [Hr Hl].
  exists (row_line <$> yielded (DataSlice_genes s self)).
  rewrite length_fmap, Hl. split; [|done].
  by rewrite write_slice_eq, Hr.
Qed.

Lemma write_slices_ok (out : list string) (g : gen DataSlice)
    (collection : DatasetCollection) :
  raised g = None →
  (∀ s, s ∈ yielded g →
        raised (DataSlice_genes s collection) = None ∧
        length (yielded (DataSlice_genes s collection)) = length (sl_ids s)) →
  ∃ log,
    write_slices out g collection = (out ++ log, None) ∧
    length log = 3 * length (yielded g) + length (yielded g ≫= sl_ids).
Proof.
  revert out. induction g as [|s rest IH|e]; intros out Hr Hall.
  - exists []. by rewrite app_nil_r.
  - cbn [write_slices yielded raised] in *.
    destruct (Hall s) as [Hsr Hsl]; [by left|].
    rewrite write_slice_eq, Hsr.
    edestruct IH as (log & -> & Hlen); [done| |].
    { intros s' Hs'. apply Hall. by right. }
    eexists. rewrite <- app_assoc. split; [done|].
    rewrite bind_cons, !length_app, length_fmap, Hlen, Hsl. simpl. lia.
  - done.
Qed.

(** X17: the writing loop of [main].  On a collection of [N] datasets it
    raises nothing and writes three lines per slice and one line per id
    found in the datasets: [3 * (2 ^ N - 1)] lines and as many as there
    are distinct ids. *)
Theorem write_slices_total (out : list string) (self : DatasetCollection) :
  NoDup (oids (datasets self)) →
  Forall (λ d, ds_ids d = dom (ds_genes d)) (datasets self) →
  ∃ log,
    write_slices out (DatasetCollection_slices self) self = (out ++ log, None) ∧
    length log
    = 3 * (2 ^ length (datasets self) - 1)
      + size (⋃ (ds_ids <$> datasets self)).
Proof.
  intros Hnd Hwf.
  destruct (write_slices_ok out (DatasetCollection_slices self) self)
    as (log & Hw & Hlen).
  - apply slices_eq.
  - intros s Hs. by apply slice_genes_complete.
  - exists log. split; [done|]. rewrite Hlen.
    rewrite (Permutation_length (slices_ids_cover self Hnd)).
    rewrite (proj2 (slices_eq self)), length_fmap, length_all_combinations.
    done.
Qed.

End writer.

Lemma write_slice_block_witness :
  ∃ s rows,
    yielded (@DatasetCollection_slices insertion_order collection_AB) !! 2
    = Some s ∧
    write_slice [] s collection_AB
    = ([] ++ [(sl_name s ++ ",Count," ++ pretty (length rows) ++ newline)%string;
              (join "," (DataSlice_fields s) ++ newline)%string]
          ++ rows ++ [newline], None) ∧
    length rows = 1.
Proof.
  eexists. 
  match goal with |- ∃ rows, ?l !! 2 = Some ?s ∧ _ =>
    assert (Hs : l !! 2 = Some s) by (vm_compute; reflexivity)
  end.
  match type of Hs with _ = Some ?s =>
    destruct (@write_slice_block insertion_order [] collection_AB s
                collection_AB_ids) as (rows & Hw & Hl)
  end.
  - by apply (list_elem_of_lookup_2 _ 2).
  - exists rows. split; [exact Hs|]. split; [exact Hw|]. rewrite Hl.
    reflexivity.
Defined.

Lemma write_slices_total_witness :
  ∃ log,
    write_slices [] (@DatasetCollection_slices insertion_order collection_AB)
      collection_AB = ([] ++ log, None) ∧
    length log = 12.
Proof.
  destruct (@write_slices_total insertion_order [] collection_AB
              collection_AB_NoDup collection_AB_ids) as (log & Hw & Hl).
  exists log. split; [exact Hw|]. rewrite Hl. vm_compute. reflexivity.
Defined.
